(** * Student-loan repayment simulator: a shallow embedding and its properties

    The development follows the four Python modules of the repository:
    [helpers.py], [calculations.py], [annual_monthly_transformers.py] and
    [simulation.py].

    Modelling choices.
    - Python numbers (ints and floats mixed freely by the code) are exact
      rationals [Q]; [==] is equality of rational numbers.  This model
      states which formulas and recurrences the code evaluates.  What
      depends on rounding, overflow or nan is stated on a second model,
      module [F64], over binary64 floats.
    - Python list objects are mutable and passed by reference
      ([extrapolate_array] extends its argument in place with [+=]), so
      lists that cross a function boundary live in a store indexed by
      locations, and the functions that touch them are written in a state
      and exception monad.  Lists that are local to one call are plain
      values.
    - Python exceptions are the [Raise] outcome of a computation; the store
      survives an exception, as it does in Python.
    - A month reference ([Union[str, int]]) is a two-constructor type. *)

From Stdlib Require Import ZArith QArith Qminmax Qpower Lqa Lia String Ascii List Bool.
From Stdlib Require Import Floats.
From stdpp Require Import gmap list.

Local Open Scope Z_scope.

(** ** Outcomes of a Python computation *)

Inductive exn : Type :=
| IndexError      (* list index out of range *)
| ValueError      (* [datetime.strptime] on a string that is no month name *)
| Unallocated.    (* a location bound to no list object: not reachable from
                     Python, where every reference designates an object *)

Inductive result (A : Type) : Type :=
| Ok (a : A)
| Raise (e : exn).
Arguments Ok {A} a.
Arguments Raise {A} e.

Definition rbind {A B} (c : result A) (k : A -> result B) : result B :=
  match c with
  | Ok a => k a
  | Raise e => Raise e
  end.

Notation "'let?' x ':=' c 'in' k" := (rbind c (fun x => k))
  (at level 10, x name, c at level 100, k at level 200).

(** ** The store of list objects and its monad *)

Definition loc := positive.
Abbreviation heap A := (gmap loc (list A)).

Definition M (A R : Type) : Type := heap A -> result R * heap A.

Definition ret {A R} (r : R) : M A R := fun h => (Ok r, h).

Definition bind {A R S} (c : M A R) (k : R -> M A S) : M A S :=
  fun h =>
    match c h with
    | (Ok r, h') => k r h'
    | (Raise e, h') => (Raise e, h')
    end.

Notation "'let*' x ':=' c 'in' k" := (bind c (fun x => k))
  (at level 10, x name, c at level 100, k at level 200).

Definition lift {A R} (c : result R) : M A R := fun h => (c, h).

(** Reading the list object behind a reference. *)
Definition load {A} (r : loc) : M A (list A) :=
  fun h =>
    match h !! r with
    | Some l => (Ok l, h)
    | None => (Raise Unallocated, h)
    end.

(** Replacing the contents of the list object behind a reference: every
    alias of [r] sees the new contents. *)
Definition store {A} (r : loc) (l : list A) : M A unit :=
  fun h =>
    match h !! r with
    | Some _ => (Ok tt, <[r := l]> h)
    | None => (Raise Unallocated, h)
    end.

(** ** Python list primitives *)

(** [l[i]]: negative indices count from the end, anything out of range
    raises [IndexError]. *)
Definition py_index {A} (l : list A) (i : Z) : result A :=
  let n := Z.of_nat (length l) in
  let j := if i <? 0 then i + n else i in
  if (0 <=? j) && (j <? n) then
    match l !! Z.to_nat j with
    | Some x => Ok x
    | None => Raise IndexError
    end
  else Raise IndexError.

(** [n * [x]]: the empty list when [n <= 0]. *)
Definition py_repeat {A} (n : Z) (x : A) : list A := replicate (Z.to_nat n) x.

(** [range(n)]. *)
Definition py_range (n : Z) : list Z := seqZ 0 n.

(** [len(l)]. *)
Definition len {A} (l : list A) : Z := Z.of_nat (length l).

(** [[f(x) for x in xs]] with a body that may raise, left to right. *)
Fixpoint map_result {A B} (f : A -> result B) (xs : list A) : result (list B) :=
  match xs with
  | [] => Ok []
  | x :: xs' =>
      let? y := f x in
      let? ys := map_result f xs' in
      Ok (y :: ys)
  end.

(** * helpers.py *)

(** ** Month references *)

Inductive month_ref : Type :=
| MonthName (s : string)
| MonthNum (n : Z).

Definition lower_ascii (c : ascii) : ascii :=
  let n := nat_of_ascii c in
  if (Nat.leb 65 n && Nat.leb n 90)%bool then ascii_of_nat (n + 32) else c.

Fixpoint lower (s : string) : string :=
  match s with
  | EmptyString => EmptyString
  | String c s' => String (lower_ascii c) (lower s')
  end.

Definition month_names : list string :=
  [ "january"; "february"; "march"; "april"; "may"; "june"; "july";
    "august"; "september"; "october"; "november"; "december" ]%string.

Fixpoint position_from (s : string) (names : list string) (i : Z) : option Z :=
  match names with
  | [] => None
  | n :: names' => if String.eqb s n then Some i else position_from s names' (i + 1)
  end.

(** [datetime.strptime(s, "%B").month]: the whole string must be a full
    English month name, matched without regard to case. *)
Definition strptime_month (s : string) : result Z :=
  match position_from (lower s) month_names 1 with
  | Some m => Ok m
  | None => Raise ValueError
  end.

(** The [isinstance(_, str)] dispatch applied to both arguments. *)
Definition month_number (m : month_ref) : result Z :=
  match m with
  | MonthName s => strptime_month s
  | MonthNum n => Ok n
  end.

(** Python's [%] with a positive divisor is [Z.modulo]. *)
Definition calculate_months_difference (current_month target_month : month_ref)
  : result Z :=
  let? current_month := month_number current_month in
  let? target_month := month_number target_month in
  let months_remaining := (target_month - current_month) mod 12 in
  let months_remaining :=
    if months_remaining =? 0 then months_remaining + 12 else months_remaining in
  Ok months_remaining.

(** ** Extrapolation, in place *)

Definition extrapolate_array {A} (arr : loc) (length : Z) : M A loc :=
  let* l := load arr in
  if len l <? length then
    let* last := lift (py_index l (-1)) in
    let* _ := store arr (l ++ py_repeat (length - len l + 1) last) in
    ret arr
  else ret arr.

(** * calculations.py *)

Definition LOWER_INCOME_THRESHOLD : Q := 27295.
Definition UPPER_INCOME_THRESHOLD : Q := 49130.
Definition INTEREST_PREMIUM : Q := 3.
Definition STUDENT_TAX : Q := 9.

Definition Qltb (x y : Q) : bool :=
  match (x ?= y)%Q with
  | Lt => true
  | _ => false
  end.

(** Python's [min(a, b)] is [b] when [b < a] and [a] otherwise, and
    [max(a, b)] is [b] when [b > a] and [a] otherwise: on [Q] these are
    [Qmin a b] and [Qmax a b]. *)
Definition calculate_annual_interest_rate
  (base_salary rpi : Q) (max_interest_cap : option Q) : Q :=
  let interest_rate := rpi in
  let interest_rate :=
    if Qltb LOWER_INCOME_THRESHOLD base_salary then
      (interest_rate
       + INTEREST_PREMIUM
         * Qmin 1 ((base_salary - LOWER_INCOME_THRESHOLD)
                   / (UPPER_INCOME_THRESHOLD - LOWER_INCOME_THRESHOLD)))%Q
    else interest_rate in
  match max_interest_cap with
  | Some cap => Qmin interest_rate cap
  | None => interest_rate
  end.

Definition calculate_monthly_installment (monthly_salary : Q) : Q :=
  let taxable_salary := Qmax 0 (monthly_salary - LOWER_INCOME_THRESHOLD / 12) in
  (taxable_salary * STUDENT_TAX / 100)%Q.

Definition calculate_monthly_interest (total_balance monthly_interest : Q) : Q :=
  (total_balance * monthly_interest / 100)%Q.

(** * annual_monthly_transformers.py *)

Definition RELIEF_PERDIOD : Z := 30.

(** The layout shared by the producers: the accumulator starts as
    [months * [first / 12]] and every later annual value appends a block
    [12 * [value / 12]]. *)
Definition append_year (monthly : list Q) (annual : Q) : list Q :=
  monthly ++ py_repeat 12 (annual / 12)%Q.

Definition get_monthly_interest_rate_array
  (annual_salaries annual_rpis : loc) (current_month : month_ref)
  : M Q (list Q) :=
  let* annual_salaries := extrapolate_array annual_salaries (RELIEF_PERDIOD + 1) in
  let* annual_rpis := extrapolate_array annual_rpis (RELIEF_PERDIOD + 1) in
  (* nothing writes to the store during the loop: both lists are read once *)
  let* salaries := load annual_salaries in
  let* rpis := load annual_rpis in
  let* annual_interest_rates :=
    lift (map_result
            (fun i =>
               let? salary := py_index salaries i in
               let? rpi := py_index rpis i in
               Ok (calculate_annual_interest_rate salary rpi None))
            (py_range (RELIEF_PERDIOD + 1))) in
  let* months_to_sept :=
    lift (calculate_months_difference current_month (MonthName "september")) in
  let* first := lift (py_index annual_interest_rates 0) in
  let monthly_interest_rates := py_repeat months_to_sept (first / 12)%Q in
  ret (fold_left append_year (drop 1 annual_interest_rates) monthly_interest_rates).

Definition get_monthly_salary_array
  (annual_salaries : loc) (current_month salary_revision_month : month_ref)
  : M Q (list Q) :=
  let* salaries := load annual_salaries in
  let* _ :=
    if len salaries <? RELIEF_PERDIOD + 1 then
      let* last := lift (py_index salaries (-1)) in
      store annual_salaries
            (salaries ++ py_repeat (RELIEF_PERDIOD - len salaries + 1) last)
    else ret tt in
  let* months_to_pay_review :=
    lift (calculate_months_difference current_month salary_revision_month) in
  let* salaries := load annual_salaries in
  let* first := lift (py_index salaries 0) in
  let monthly_salaries := py_repeat months_to_pay_review (first / 12)%Q in
  ret (fold_left append_year (drop 1 salaries) monthly_salaries).

(** The default of [salary_revision_month]. *)
Definition april : month_ref := MonthName "april".

(** [numpy.cumprod] on a one-dimensional array: the running product, whose
    first entry is the first element itself. *)
Fixpoint cumprod_from (acc : Q) (xs : list Q) : list Q :=
  match xs with
  | [] => []
  | x :: xs' => (acc * x)%Q :: cumprod_from (acc * x)%Q xs'
  end.

Definition cumprod (xs : list Q) : list Q :=
  match xs with
  | [] => []
  | x :: xs' => x :: cumprod_from x xs'
  end.

(** [current_month] defaults to the calendar month of the day the module is
    loaded; here it is always passed.  [1 + array(monthly_rpis) / 100]
    works element by element. *)
Definition get_monthly_discount_factor
  (annual_rpis : loc) (current_month : month_ref) : M Q (list Q) :=
  let* annual_rpis := extrapolate_array annual_rpis (RELIEF_PERDIOD + 1) in
  let* months_to_sept :=
    lift (calculate_months_difference current_month (MonthName "september")) in
  let* rpis := load annual_rpis in
  let* first := lift (py_index rpis 0) in
  let monthly_rpis := py_repeat months_to_sept (first / 12)%Q in
  let monthly_rpis := fold_left append_year (drop 1 rpis) monthly_rpis in
  let monthly_rpis := map (fun rpi => (1 + rpi / 100)%Q) monthly_rpis in
  let monthly_discount_factors := cumprod monthly_rpis in
  ret monthly_discount_factors.

(** * simulation.py *)

(** The loop state: the running balance and the three output lists. *)
Record sim_state : Type := mk_sim_state {
  loan_outstanding : Q;
  monthly_repayments : list Q;
  monthly_interest : list Q;
  monthly_balance : list Q
}.

(** The installment of month [i] once the discretionary repayment, if the
    dictionary has the key, is added. *)
Definition with_discretionary
  (discretionary_repayments : gmap Z Q) (i : Z) (installment : Q) : Q :=
  match discretionary_repayments !! i with
  | Some extra => (installment + extra)%Q
  | None => installment
  end.

(** One iteration of the [for i in range(months_to_relief)] loop. *)
Definition simulate_month
  (monthly_salaries monthly_interest_rates : list Q)
  (discretionary_repayments : gmap Z Q) (st : sim_state) (i : Z)
  : result sim_state :=
  let? rate := py_index monthly_interest_rates i in
  let interest := calculate_monthly_interest (loan_outstanding st) rate in
  let? salary := py_index monthly_salaries i in
  let installment := calculate_monthly_installment salary in
  let installment := with_discretionary discretionary_repayments i installment in
  let repayment := Qmin installment (loan_outstanding st + interest) in
  let balance := (loan_outstanding st + interest - repayment)%Q in
  Ok {| loan_outstanding := balance;
        monthly_repayments := monthly_repayments st ++ [repayment];
        monthly_interest := monthly_interest st ++ [interest];
        monthly_balance := monthly_balance st ++ [balance] |}.

Fixpoint simulate_loop
  (monthly_salaries monthly_interest_rates : list Q)
  (discretionary_repayments : gmap Z Q) (months : list Z) (st : sim_state)
  : result sim_state :=
  match months with
  | [] => Ok st
  | i :: months' =>
      let? st' := simulate_month monthly_salaries monthly_interest_rates
                                 discretionary_repayments st i in
      simulate_loop monthly_salaries monthly_interest_rates
                    discretionary_repayments months' st'
  end.

Definition simulate_repayment
  (loan_outstanding : Q) (annual_rpis annual_salaries : loc)
  (current_month : month_ref) (months_to_relief : Z)
  (discretionary_repayments : gmap Z Q)
  : M Q (list Q * list Q * list Q) :=
  let* monthly_salaries :=
    get_monthly_salary_array annual_salaries current_month april in
  let* monthly_interest_rates :=
    get_monthly_interest_rate_array annual_salaries annual_rpis current_month in
  let* final :=
    lift (simulate_loop monthly_salaries monthly_interest_rates
                        discretionary_repayments (py_range months_to_relief)
                        (mk_sim_state loan_outstanding [] [] [])) in
  ret (monthly_repayments final, monthly_interest final, monthly_balance final).

(** * The same code on binary64 floats

    The definitions above read Python's numbers as exact rationals.  Python's
    [float] is an IEEE 754 binary64 number, which is Rocq's primitive
    [float]: operations round to nearest-even, overflow to an infinity, and
    produce nan for [inf * 0] and [inf - inf]; a comparison with nan is
    false.  Module [F64] repeats the numeric functions over [float], so that
    what depends on rounding or overflow can be stated on the arithmetic the
    code runs in.  Its inputs are floats; a number given as a Python int is
    taken to be of magnitude below [2 ^ 53], where it is the float it
    converts to and Python's int and mixed arithmetic gives the results of
    float arithmetic.  None of the divisions of the code has a divisor that
    can be zero, so no float operation raises.  The list store, the month
    arithmetic and the list primitives are shared with the exact model. *)

Module F64.

Local Open Scope float_scope.

(** Python's [min(a, b)]: [b] when [b < a], else [a]; and [max(a, b)]: [b]
    when [b > a], else [a].  With a nan argument the comparison is false and
    the first argument is returned. *)
Definition py_min (a b : float) : float := if b <? a then b else a.
Definition py_max (a b : float) : float := if a <? b then b else a.

Definition LOWER_INCOME_THRESHOLD : float := 27295.
Definition UPPER_INCOME_THRESHOLD : float := 49130.
Definition INTEREST_PREMIUM : float := 3.
Definition STUDENT_TAX : float := 9.

Definition calculate_annual_interest_rate
  (base_salary rpi : float) (max_interest_cap : option float) : float :=
  let interest_rate := rpi in
  let interest_rate :=
    if LOWER_INCOME_THRESHOLD <? base_salary then
      interest_rate
      + INTEREST_PREMIUM
        * py_min 1 ((base_salary - LOWER_INCOME_THRESHOLD)
                    / (UPPER_INCOME_THRESHOLD - LOWER_INCOME_THRESHOLD))
    else interest_rate in
  match max_interest_cap with
  | Some cap => py_min interest_rate cap
  | None => interest_rate
  end.

Definition calculate_monthly_installment (monthly_salary : float) : float :=
  let taxable_salary := py_max 0 (monthly_salary - LOWER_INCOME_THRESHOLD / 12) in
  taxable_salary * STUDENT_TAX / 100.

Definition calculate_monthly_interest (total_balance monthly_interest : float)
  : float :=
  total_balance * monthly_interest / 100.

Definition append_year (monthly : list float) (annual : float) : list float :=
  monthly ++ py_repeat 12 (annual / 12).

Definition get_monthly_interest_rate_array
  (annual_salaries annual_rpis : loc) (current_month : month_ref)
  : M float (list float) :=
  let* annual_salaries := extrapolate_array annual_salaries (RELIEF_PERDIOD + 1) in
  let* annual_rpis := extrapolate_array annual_rpis (RELIEF_PERDIOD + 1) in
  let* salaries := load annual_salaries in
  let* rpis := load annual_rpis in
  let* annual_interest_rates :=
    lift (map_result
            (fun i =>
               let? salary := py_index salaries i in
               let? rpi := py_index rpis i in
               Ok (calculate_annual_interest_rate salary rpi None))
            (py_range (RELIEF_PERDIOD + 1))) in
  let* months_to_sept :=
    lift (calculate_months_difference current_month (MonthName "september")) in
  let* first := lift (py_index annual_interest_rates 0) in
  let monthly_interest_rates := py_repeat months_to_sept (first / 12) in
  ret (fold_left append_year (drop 1 annual_interest_rates) monthly_interest_rates).

Definition get_monthly_salary_array
  (annual_salaries : loc) (current_month salary_revision_month : month_ref)
  : M float (list float) :=
  let* salaries := load annual_salaries in
  let* _ :=
    if (len salaries <? RELIEF_PERDIOD + 1)%Z then
      let* last := lift (py_index salaries (-1)) in
      store annual_salaries
            (salaries ++ py_repeat (RELIEF_PERDIOD - len salaries + 1) last)
    else ret tt in
  let* months_to_pay_review :=
    lift (calculate_months_difference current_month salary_revision_month) in
  let* salaries := load annual_salaries in
  let* first := lift (py_index salaries 0) in
  let monthly_salaries := py_repeat months_to_pay_review (first / 12) in
  ret (fold_left append_year (drop 1 salaries) monthly_salaries).

Record sim_state : Type := mk_sim_state {
  loan_outstanding : float;
  monthly_repayments : list float;
  monthly_interest : list float;
  monthly_balance : list float
}.

Definition with_discretionary
  (discretionary_repayments : gmap Z float) (i : Z) (installment : float) : float :=
  match discretionary_repayments !! i with
  | Some extra => installment + extra
  | None => installment
  end.

Definition simulate_month
  (monthly_salaries monthly_interest_rates : list float)
  (discretionary_repayments : gmap Z float) (st : sim_state) (i : Z)
  : result sim_state :=
  let? rate := py_index monthly_interest_rates i in
  let interest := calculate_monthly_interest (loan_outstanding st) rate in
  let? salary := py_index monthly_salaries i in
  let installment := calculate_monthly_installment salary in
  let installment := with_discretionary discretionary_repayments i installment in
  let repayment := py_min installment (loan_outstanding st + interest) in
  let balance := loan_outstanding st + interest - repayment in
  Ok {| loan_outstanding := balance;
        monthly_repayments := monthly_repayments st ++ [repayment];
        monthly_interest := monthly_interest st ++ [interest];
        monthly_balance := monthly_balance st ++ [balance] |}.

Fixpoint simulate_loop
  (monthly_salaries monthly_interest_rates : list float)
  (discretionary_repayments : gmap Z float) (months : list Z) (st : sim_state)
  : result sim_state :=
  match months with
  | [] => Ok st
  | i :: months' =>
      let? st' := simulate_month monthly_salaries monthly_interest_rates
                                 discretionary_repayments st i in
      simulate_loop monthly_salaries monthly_interest_rates
                    discretionary_repayments months' st'
  end.

Definition simulate_repayment
  (loan_outstanding : float) (annual_rpis annual_salaries : loc)
  (current_month : month_ref) (months_to_relief : Z)
  (discretionary_repayments : gmap Z float)
  : M float (list float * list float * list float) :=
  let* monthly_salaries :=
    get_monthly_salary_array annual_salaries current_month april in
  let* monthly_interest_rates :=
    get_monthly_interest_rate_array annual_salaries annual_rpis current_month in
  let* final :=
    lift (simulate_loop monthly_salaries monthly_interest_rates
                        discretionary_repayments (py_range months_to_relief)
                        (mk_sim_state loan_outstanding [] [] [])) in
  ret (monthly_repayments final, monthly_interest final, monthly_balance final).

(** The balance month [i] starts from, and what the output lists hold at
    month [i], as for the exact model. *)
Definition balance_before (loan : float) (balances : list float) (i : nat) : float :=
  match i with
  | O => loan
  | S j => default 0 (balances !! j)
  end.

Definition month_row (salaries rates : list float) (d : gmap Z float) (loan : float)
    (repayments interests balances : list float) (i : nat) : Prop :=
  exists salary rate,
    salaries !! i = Some salary /\ rates !! i = Some rate /\
    let balance := balance_before loan balances i in
    let interest := calculate_monthly_interest balance rate in
    let installment :=
      with_discretionary d (Z.of_nat i) (calculate_monthly_installment salary) in
    let repayment := py_min installment (balance + interest) in
    interests !! i = Some interest /\
    repayments !! i = Some repayment /\
    balances !! i = Some (balance + interest - repayment).

(** The two monthly series a call of [simulate_repayment] works on. *)
Definition monthly_series (h : heap float) (rs rr : loc) (cm : month_ref)
    (salaries rates : list float) (h' : heap float) : Prop :=
  exists h1,
    get_monthly_salary_array rs cm april h = (Ok salaries, h1) /\
    get_monthly_interest_rate_array rs rr cm h1 = (Ok rates, h') /\
    (360 <= len salaries)%Z /\ (360 <= len rates)%Z.

End F64.

(** The float counterparts of a store with a salary list at location 1 and
    an RPI list at location 2, and a store whose first RPI is 1200 per
    cent. *)
Definition example_store_f64 : heap float :=
  {[ 1%positive := [30000%float; 31000%float]; 2%positive := [2%float] ]}.

Definition overflow_store_f64 : heap float :=
  {[ 1%positive := [20000%float]; 2%positive := [1200%float; 0%float] ]}.

(** * Specification vocabulary *)

(** A month reference the code accepts: an integer in 1..12 or a string
    that is a full month name up to case. *)
Definition valid_month (m : month_ref) : Prop :=
  match m with
  | MonthName s => In (lower s) month_names
  | MonthNum n => 1 <= n <= 12
  end.

(** A string that [strptime] rejects; an integer is never rejected. *)
Definition unknown_month_name (m : month_ref) : Prop :=
  match m with
  | MonthName s => ~ In (lower s) month_names
  | MonthNum _ => False
  end.

(** The calendar: the twelve English month names with their numbers. *)
Definition calendar : list (string * Z) :=
  [ ("January", 1); ("February", 2); ("March", 3); ("April", 4); ("May", 5);
    ("June", 6); ("July", 7); ("August", 8); ("September", 9);
    ("October", 10); ("November", 11); ("December", 12) ]%string.

(** Two characters that are equal or differ only by letter case: an
    upper-case letter is 32 code points below its lower-case form. *)
Definition is_upper (c : ascii) : Prop := (65 <= nat_of_ascii c <= 90)%nat.

Definition same_letter (a b : ascii) : Prop :=
  a = b
  \/ (is_upper a /\ nat_of_ascii b = (nat_of_ascii a + 32)%nat)
  \/ (is_upper b /\ nat_of_ascii a = (nat_of_ascii b + 32)%nat).

Fixpoint same_word (s t : string) : Prop :=
  match s, t with
  | EmptyString, EmptyString => True
  | String a s', String b t' => same_letter a b /\ same_word s' t'
  | _, _ => False
  end.

(** The month number a month reference stands for: an integer in 1..12
    stands for itself, a string for the number the calendar gives the month
    name it spells, whatever the case of its letters. *)
Definition month_denotes (m : month_ref) (n : Z) : Prop :=
  match m with
  | MonthNum k => k = n /\ 1 <= n <= 12
  | MonthName s => exists name, In (name, n) calendar /\ same_word s name
  end.

(** The annual entry that month [i] of a monthly series is taken from: the
    first one during the leading [months] entries, then one more every 12
    months. *)
Definition year_of_month (months : Z) (i : nat) : nat :=
  if (i <? Z.to_nat months)%nat then O
  else S ((i - Z.to_nat months) / 12).

(** The annual value for year [y] when the last value stands for every
    year past the end of the list. *)
Definition annual_value {A} (values : list A) (y : nat) : option A :=
  match values !! y with
  | Some a => Some a
  | None => last values
  end.

(** The contents of the list object after [extrapolate_array]. *)
Definition extrapolated {A} (values : list A) (length : Z) : list A :=
  match last values with
  | Some x =>
      if len values <? length
      then values ++ py_repeat (length - len values + 1) x
      else values
  | None => values
  end.

(** The contents of the salary list after the in-line padding of
    [get_monthly_salary_array], which, unlike [extrapolate_array], stops at
    [RELIEF_PERDIOD + 1] elements. *)
Definition padded_salaries (salaries : list Q) : list Q :=
  match last salaries with
  | Some x =>
      if len salaries <? RELIEF_PERDIOD + 1
      then salaries ++ py_repeat (RELIEF_PERDIOD - len salaries + 1) x
      else salaries
  | None => salaries
  end.

(** [months] copies of the first annual value over 12, then a block of 12
    copies of each later annual value over 12. *)
Definition monthly_layout (months : Z) (annual : list Q) : list Q :=
  match annual with
  | [] => []
  | first :: rest =>
      py_repeat months (first / 12)%Q
      ++ flat_map (fun a => py_repeat 12 (a / 12)%Q) rest
  end.

(** The annual rates computed by the [for i in range(RELIEF_PERDIOD + 1)]
    loop from the two extrapolated lists. *)
Definition annual_rates_of (salaries rpis rates : list Q) : Prop :=
  length rates = 31%nat /\
  forall i : nat, (i < 31)%nat ->
    exists salary rpi,
      salaries !! i = Some salary /\ rpis !! i = Some rpi /\
      rates !! i = Some (calculate_annual_interest_rate salary rpi None).

(** ** Classes of binary64 values

    A float is read through [Prim2SF] as a [spec_float]: a signed zero, a
    signed infinity, nan, or a finite number with sign, mantissa and
    exponent. *)

(** The values of sign [s]; nan has none. *)
Definition sf_signed (s : bool) (r : spec_float) : Prop :=
  match r with
  | S754_zero s' | S754_infinity s' | S754_finite s' _ _ => s' = s
  | S754_nan => False
  end.

(** The values [x] with [0 <= x], the values with [x <= 0], the finite
    values and nan. *)
Definition sf_nonneg (r : spec_float) : Prop :=
  match r with
  | S754_zero _ | S754_infinity false | S754_finite false _ _ => True
  | _ => False
  end.

Definition sf_nonpos (r : spec_float) : Prop :=
  match r with
  | S754_zero _ | S754_infinity true | S754_finite true _ _ => True
  | _ => False
  end.

Definition sf_finite (r : spec_float) : bool :=
  match r with
  | S754_zero _ | S754_finite _ _ _ => true
  | _ => false
  end.

Definition sf_nan (r : spec_float) : bool :=
  match r with
  | S754_nan => true
  | _ => false
  end.

(** The mantissa of a finite number at the exponent [ez], signed. *)
Definition aligned (s : bool) (m : positive) (e ez : Z) : Z :=
  cond_Zopp s (Zpos (fst (shl_align m e ez))).

Local Open Scope Q_scope.

(** The salary-dependent premium of [calculate_annual_interest_rate]. *)
Definition premium_share (base_salary : Q) : Q :=
  Qmin 1 ((base_salary - LOWER_INCOME_THRESHOLD)
          / (UPPER_INCOME_THRESHOLD - LOWER_INCOME_THRESHOLD)).

(** The balance that month [i] starts from: the initial loan for the first
    month, the balance recorded for the month before otherwise. *)
Definition balance_before (loan : Q) (balances : list Q) (i : nat) : Q :=
  match i with
  | O => loan
  | S j => default 0 (balances !! j)
  end.

(** What the three output lists hold at month [i], given the monthly
    series and the dictionary. *)
Definition month_row (salaries rates : list Q) (d : gmap Z Q) (loan : Q)
    (repayments interests balances : list Q) (i : nat) : Prop :=
  exists salary rate,
    salaries !! i = Some salary /\ rates !! i = Some rate /\
    let balance := balance_before loan balances i in
    let interest := calculate_monthly_interest balance rate in
    let installment :=
      with_discretionary d (Z.of_nat i) (calculate_monthly_installment salary) in
    let repayment := Qmin installment (balance + interest) in
    interests !! i = Some interest /\
    repayments !! i = Some repayment /\
    balances !! i = Some (balance + interest - repayment).

(** The three output lists of a run over [n] months: [n] entries each, and
    every month as [month_row] describes it. *)
Definition amortization (salaries rates : list Q) (d : gmap Z Q) (loan : Q)
    (n : nat) (repayments interests balances : list Q) : Prop :=
  length repayments = n /\ length interests = n /\ length balances = n /\
  forall i : nat, (i < n)%nat ->
    month_row salaries rates d loan repayments interests balances i.

(** The two monthly series a call of [simulate_repayment] works on: the
    salary series is built first, on the caller's store, and the rate series
    second, on the store the first call leaves behind. *)
Definition monthly_series (h : heap Q) (rs rr : loc) (cm : month_ref)
    (salaries rates : list Q) (h' : heap Q) : Prop :=
  exists h1,
    get_monthly_salary_array rs cm april h = (Ok salaries, h1) /\
    get_monthly_interest_rate_array rs rr cm h1 = (Ok rates, h') /\
    (360 <= len salaries)%Z /\ (360 <= len rates)%Z.

(** A store with a salary list at location 1 and an RPI list at location 2. *)
Definition example_store : heap Q :=
  {[ 1%positive := [30000; 31000]; 2%positive := [2] ]}.

Local Close Scope Q_scope.

(** * Properties of helpers.py *)

Lemma strptime_month_valid (s : string) :
  In (lower s) month_names ->
  exists n, strptime_month s = Ok n /\ 1 <= n <= 12.
Proof.
  unfold strptime_month. intros Hin. simpl in Hin.
  repeat (destruct Hin as [<- | Hin];
          [eexists; split; [reflexivity | lia] | ]).
  contradiction.
Qed.

Lemma month_number_valid (m : month_ref) :
  valid_month m -> exists n, month_number m = Ok n /\ 1 <= n <= 12.
Proof.
  destruct m as [s | n]; simpl.
  - apply strptime_month_valid.
  - intros Hn. exists n. split; [reflexivity | exact Hn].
Qed.

Lemma calculate_months_difference_numbers c t mc mt :
  month_number c = Ok mc -> month_number t = Ok mt ->
  calculate_months_difference c t =
    Ok (if (mt - mc) mod 12 =? 0 then 12 else (mt - mc) mod 12).
Proof.
  intros Hc Ht. unfold calculate_months_difference. rewrite Hc, Ht. simpl.
  destruct ((mt - mc) mod 12 =? 0) eqn:E; [ | reflexivity].
  apply Z.eqb_eq in E. rewrite E. reflexivity.
Qed.

Lemma calculate_months_difference_range c t :
  valid_month c -> valid_month t ->
  exists d, calculate_months_difference c t = Ok d /\ 1 <= d <= 12.
Proof.
  intros Hc Ht.
  destruct (month_number_valid c Hc) as (mc & Ec & _).
  destruct (month_number_valid t Ht) as (mt & Et & _).
  eexists. split; [apply (calculate_months_difference_numbers c t mc mt Ec Et) | ].
  pose proof (Z.mod_pos_bound (mt - mc) 12 ltac:(lia)) as Hb.
  destruct ((mt - mc) mod 12 =? 0) eqn:E; [lia | ].
  apply Z.eqb_neq in E. lia.
Qed.

(** From January the next September is 8 months away and the next April 3;
    a month is 12 months away from itself; an abbreviation is no month. *)
Example months_january_september :
  calculate_months_difference (MonthName "January") (MonthName "september") = Ok 8.
Proof. reflexivity. Qed.

Example months_january_april :
  calculate_months_difference (MonthNum 1) april = Ok 3.
Proof. reflexivity. Qed.

Example months_october_september :
  calculate_months_difference (MonthNum 10) (MonthNum 9) = Ok 11.
Proof. reflexivity. Qed.

Example months_abbreviation_rejected :
  calculate_months_difference (MonthName "Sept") (MonthNum 9) = Raise ValueError.
Proof. reflexivity. Qed.

Lemma lower_ascii_same_letter (a b : ascii) :
  lower_ascii a = lower_ascii b -> same_letter a b.
Proof.
  unfold lower_ascii, same_letter, is_upper.
  pose proof (nat_ascii_bounded a) as Ba. pose proof (nat_ascii_bounded b) as Bb.
  destruct (Nat.leb_spec 65 (nat_of_ascii a)) as [La | La];
    destruct (Nat.leb_spec (nat_of_ascii a) 90) as [Ua | Ua];
    destruct (Nat.leb_spec 65 (nat_of_ascii b)) as [Lb | Lb];
    destruct (Nat.leb_spec (nat_of_ascii b) 90) as [Ub | Ub];
    cbn [andb]; intros H;
    try (left; exact H);
    try (apply (f_equal nat_of_ascii) in H;
         rewrite ?nat_ascii_embedding in H by lia;
         first [ left; rewrite <- (ascii_nat_embedding a), <- (ascii_nat_embedding b);
                 f_equal; lia
               | right; left; split; [lia | lia]
               | right; right; split; [lia | lia] ]).
Qed.

Lemma lower_same_word (s t : string) : lower s = lower t -> same_word s t.
Proof.
  revert t. induction s as [ | a s IH]; intros [ | b t]; simpl; try discriminate.
  - tauto.
  - intros H. injection H as Ha Hs. split.
    + apply lower_ascii_same_letter. exact Ha.
    + apply IH. exact Hs.
Qed.

Lemma same_letter_lower_ascii (a b : ascii) :
  same_letter a b -> lower_ascii a = lower_ascii b.
Proof.
  unfold lower_ascii, same_letter, is_upper.
  pose proof (nat_ascii_bounded a) as Ba. pose proof (nat_ascii_bounded b) as Bb.
  intros [-> | [(Ha & Hb) | (Hb & Ha)]]; [reflexivity | | ].
  - destruct (Nat.leb_spec 65 (nat_of_ascii a)); [ | lia].
    destruct (Nat.leb_spec (nat_of_ascii a) 90); [ | lia].
    destruct (Nat.leb_spec (nat_of_ascii b) 90); [lia | ].
    rewrite andb_false_r. cbn [andb].
    rewrite <- Hb. apply ascii_nat_embedding.
  - destruct (Nat.leb_spec 65 (nat_of_ascii b)); [ | lia].
    destruct (Nat.leb_spec (nat_of_ascii b) 90); [ | lia].
    destruct (Nat.leb_spec (nat_of_ascii a) 90); [lia | ].
    rewrite andb_false_r. cbn [andb].
    rewrite <- Ha. symmetry. apply ascii_nat_embedding.
Qed.

Lemma same_word_lower (s t : string) : same_word s t -> lower s = lower t.
Proof.
  revert t. induction s as [ | a s IH]; intros [ | b t]; simpl; try tauto.
  intros (Ha & Hs). rewrite (same_letter_lower_ascii a b Ha), (IH t Hs).
  reflexivity.
Qed.

(** What a month reference denotes is what the code converts it to. *)
Lemma month_denotes_number (m : month_ref) (n : Z) :
  month_denotes m n -> month_number m = Ok n.
Proof.
  destruct m as [s | k]; simpl.
  - intros (name & Hin & Hw). apply same_word_lower in Hw.
    unfold strptime_month. rewrite Hw. unfold calendar in Hin.
    repeat (destruct Hin as [Hin | Hin];
            [injection Hin as <- <-; reflexivity | ]).
    contradiction.
  - intros (-> & _). reflexivity.
Qed.

(** A valid month reference denotes a number of 1..12, and that number is
    what the code converts it to. *)
Lemma month_number_denotes (m : month_ref) :
  valid_month m ->
  exists n, month_denotes m n /\ month_number m = Ok n /\ 1 <= n <= 12.
Proof.
  destruct m as [s | k]; simpl.
  - unfold strptime_month, month_names.
    intros Hin.
    repeat (destruct Hin as [Hin | Hin];
            [rewrite <- Hin; eexists; split; [ | split; [reflexivity | lia]];
             eexists; split;
             [solve [repeat (first [left; reflexivity | right])]
             | apply lower_same_word; rewrite <- Hin; reflexivity]
            | ]).
    contradiction.
  - intros Hk. exists k. split; [tauto | ]. split; [reflexivity | exact Hk].
Qed.

(** C8. A valid month reference [current] denotes exactly one month number
    [mc] of 1..12, the number the calendar gives the name it spells or the
    integer itself, and so does [target] with [mt]; the code converts the
    references to these numbers, and [calculate_months_difference] returns
    [(mt - mc) mod 12] with a zero result replaced by 12.  The result lies
    in 1..12, and the difference of a month with itself is 12. *)
Theorem calculate_months_difference_spec (current target : month_ref) :
  valid_month current -> valid_month target ->
  exists mc mt d,
    month_denotes current mc /\ (forall n, month_denotes current n -> n = mc) /\
    month_denotes target mt /\ (forall n, month_denotes target n -> n = mt) /\
    month_number current = Ok mc /\ 1 <= mc <= 12 /\
    month_number target = Ok mt /\ 1 <= mt <= 12 /\
    calculate_months_difference current target = Ok d /\
    d = (if (mt - mc) mod 12 =? 0 then 12 else (mt - mc) mod 12) /\
    1 <= d <= 12 /\
    calculate_months_difference current current = Ok 12.
Proof.
  intros Hc Ht.
  destruct (month_number_denotes current Hc) as (mc & Dc & Ec & Rc).
  destruct (month_number_denotes target Ht) as (mt & Dt & Et & Rt).
  exists mc, mt, (if (mt - mc) mod 12 =? 0 then 12 else (mt - mc) mod 12).
  pose proof (Z.mod_pos_bound (mt - mc) 12 ltac:(lia)) as Hb.
  split; [exact Dc | ].
  split; [intros n Hn; apply month_denotes_number in Hn; congruence | ].
  split; [exact Dt | ].
  split; [intros n Hn; apply month_denotes_number in Hn; congruence | ].
  split; [exact Ec | ]. split; [exact Rc | ].
  split; [exact Et | ]. split; [exact Rt | ].
  split; [apply (calculate_months_difference_numbers _ _ _ _ Ec Et) | ].
  split; [reflexivity | ].
  split.
  - destruct ((mt - mc) mod 12 =? 0) eqn:E; [lia | ].
    apply Z.eqb_neq in E. lia.
  - rewrite (calculate_months_difference_numbers _ _ _ _ Ec Ec).
    replace (mc - mc) with 0 by lia. reflexivity.
Qed.

Lemma calculate_months_difference_spec_witness :
  month_denotes (MonthName "January") 1 /\ month_denotes (MonthNum 9) 9 /\
  calculate_months_difference (MonthName "January") (MonthNum 9) = Ok 8 /\
  calculate_months_difference (MonthName "January") (MonthName "January") = Ok 12.
Proof.
  destruct (calculate_months_difference_spec (MonthName "January") (MonthNum 9))
    as (mc & mt & d & Dc & _ & Dt & _ & Ec & _ & Et & _ & Hd & Hv & _ & Hself).
  - simpl. tauto.
  - simpl. lia.
  - vm_compute in Ec. injection Ec as <-. injection Et as <-.
    subst d. auto.
Defined.

(** ** Indexing *)

Lemma py_index_nil {A} (i : Z) : py_index (@nil A) i = Raise IndexError.
Proof.
  unfold py_index. simpl.
  destruct (_ && _); reflexivity.
Qed.

Ltac case_bounds :=
  repeat match goal with
         | |- context [?a <? ?b] => destruct (Z.ltb_spec a b); try lia
         | |- context [?a <=? ?b] => destruct (Z.leb_spec a b); try lia
         end.

Lemma py_index_nonneg {A} (l : list A) (i : nat) (x : A) :
  l !! i = Some x -> py_index l (Z.of_nat i) = Ok x.
Proof.
  intros Hx. pose proof (lookup_lt_Some _ _ _ Hx) as Hlt.
  unfold py_index. cbv zeta. case_bounds.
  simpl. rewrite Nat2Z.id, Hx. reflexivity.
Qed.

Lemma py_index_last {A} (l : list A) (x : A) :
  last l = Some x -> py_index l (-1) = Ok x.
Proof.
  intros Hx. rewrite last_lookup in Hx.
  pose proof (lookup_lt_Some _ _ _ Hx) as Hlt.
  unfold py_index. cbv zeta. case_bounds.
  simpl.
  replace (Z.to_nat (-1 + Z.of_nat (length l))) with (pred (length l)) by lia.
  rewrite Hx. reflexivity.
Qed.

Lemma last_nonempty {A} (l : list A) : l <> [] -> exists x, last l = Some x.
Proof.
  intros Hne. destruct (last l) as [x | ] eqn:E; [eauto | ].
  apply last_None in E. contradiction.
Qed.

(** ** [extrapolate_array] *)

Lemma extrapolate_array_run {A} (h : heap A) arr values length :
  h !! arr = Some values -> values <> [] ->
  extrapolate_array arr length h = (Ok arr, <[arr := extrapolated values length]> h).
Proof.
  intros Hh Hne. destruct (last_nonempty values Hne) as (x & Hx).
  unfold extrapolate_array, extrapolated, bind, load, store, lift, ret.
  rewrite Hh, Hx.
  destruct (len values <? length).
  - rewrite (py_index_last _ _ Hx), Hh. reflexivity.
  - rewrite insert_id by exact Hh. reflexivity.
Qed.

Lemma extrapolated_length {A} (values : list A) (length : Z) :
  values <> [] -> length <= len (extrapolated values length).
Proof.
  intros Hne. destruct (last_nonempty values Hne) as (x & Hx).
  unfold extrapolated. rewrite Hx.
  destruct (len values <? length) eqn:E.
  - apply Z.ltb_lt in E. unfold len, py_repeat in *.
    rewrite length_app, length_replicate. lia.
  - apply Z.ltb_ge in E. exact E.
Qed.

Lemma extrapolated_nonempty {A} (values : list A) (length : Z) :
  values <> [] -> extrapolated values length <> [].
Proof.
  intros Hne. unfold extrapolated.
  destruct (last values); [ | exact Hne].
  destruct (len values <? length); [ | exact Hne].
  destruct values; [contradiction | discriminate].
Qed.

(** Two elements extrapolated to a target of 4 become five; the in-line
    padding of [get_monthly_salary_array] stops at 31 where
    [extrapolate_array] reaches 32. *)
Example extrapolate_two_to_four :
  extrapolate_array 1%positive 4 ({[ 1%positive := [5; 7] ]} : heap Z)
  = (Ok 1%positive, {[ 1%positive := [5; 7; 7; 7; 7] ]}).
Proof. reflexivity. Qed.

Example padding_lengths :
  len (padded_salaries [30000%Q; 31000%Q]) = 31 /\
  len (extrapolated [30000%Q; 31000%Q] (RELIEF_PERDIOD + 1)) = 32.
Proof. split; reflexivity. Qed.

(** C3. On a non-empty list, [extrapolate_array] returns the same list
    object; it leaves it as it is when it already has at least [length]
    elements, and otherwise extends it with [length - len + 1] copies of its
    last element, which makes it [length + 1] long. *)
Theorem extrapolate_array_spec {A} (h : heap A) (arr : loc) (values : list A)
    (length : Z) :
  h !! arr = Some values -> values <> [] ->
  (length <= len values -> extrapolate_array arr length h = (Ok arr, h)) /\
  (len values < length ->
   exists x,
     last values = Some x /\
     extrapolate_array arr length h =
       (Ok arr,
        <[arr := values ++ replicate (Z.to_nat (length - len values + 1)) x]> h) /\
     len (values ++ replicate (Z.to_nat (length - len values + 1)) x)
       = length + 1).
Proof.
  intros Hh Hne. rewrite (extrapolate_array_run h arr values length Hh Hne).
  destruct (last_nonempty values Hne) as (x & Hx).
  unfold extrapolated. rewrite Hx. split.
  - intros Hle. replace (len values <? length) with false
      by (symmetry; apply Z.ltb_ge; exact Hle).
    rewrite insert_id by exact Hh. reflexivity.
  - intros Hlt. exists x. split; [reflexivity | ].
    replace (len values <? length) with true
      by (symmetry; apply Z.ltb_lt; exact Hlt).
    split; [reflexivity | ].
    unfold len in *. rewrite length_app, length_replicate. lia.
Qed.

Lemma extrapolate_array_spec_witness :
  let h : heap Q := {[ 1%positive := [5%Q; 7%Q] ]} in
  (2 <= len [5%Q; 7%Q] -> extrapolate_array 1%positive 2 h = (Ok 1%positive, h)) /\
  (len [5%Q; 7%Q] < 4 ->
   exists x,
     last [5%Q; 7%Q] = Some x /\
     extrapolate_array 1%positive 4 h =
       (Ok 1%positive,
        <[1%positive := [5%Q; 7%Q] ++ replicate (Z.to_nat (4 - len [5%Q; 7%Q] + 1)) x]> h) /\
     len ([5%Q; 7%Q] ++ replicate (Z.to_nat (4 - len [5%Q; 7%Q] + 1)) x) = 4 + 1).
Proof.
  intros h. split.
  - apply (extrapolate_array_spec h 1%positive [5%Q; 7%Q] 2);
      [reflexivity | discriminate].
  - apply (extrapolate_array_spec h 1%positive [5%Q; 7%Q] 4);
      [reflexivity | discriminate].
Defined.

(** C9, as stated, fails on the code: with a target length of 0 the guard
    [len(arr) < length] is false for the empty list, which is returned as it
    is and nothing is raised. *)
Lemma extrapolate_array_empty_zero_returns :
  let h : heap Q := {[ 1%positive := [] ]} in
  extrapolate_array 1%positive 0 h = (Ok 1%positive, h) /\
  fst (extrapolate_array 1%positive 0 h) <> Raise IndexError.
Proof.
  intros h. split; [reflexivity | discriminate].
Qed.

(** C9, amended. On the empty list [extrapolate_array] raises [IndexError]
    exactly when the target length is at least 1, and returns the empty list
    untouched when it is 0 or negative; on a non-empty list it returns the
    list object for every target length. *)
Theorem extrapolate_array_errors {A} (h : heap A) (arr : loc) (values : list A)
    (length : Z) :
  h !! arr = Some values ->
  (values = [] -> 1 <= length ->
   extrapolate_array arr length h = (Raise IndexError, h)) /\
  (values = [] -> length <= 0 ->
   extrapolate_array arr length h = (Ok arr, h)) /\
  (values <> [] -> exists h', extrapolate_array arr length h = (Ok arr, h')).
Proof.
  intros Hh. repeat split.
  - intros -> Hlen.
    unfold extrapolate_array, bind, load, lift. rewrite Hh.
    unfold len. simpl. case_bounds. reflexivity.
  - intros -> Hlen.
    unfold extrapolate_array, bind, load, ret. rewrite Hh.
    unfold len. simpl. case_bounds. reflexivity.
  - intros Hne. eexists. apply (extrapolate_array_run h arr values length Hh Hne).
Qed.

Lemma extrapolate_array_errors_witness :
  let h : heap Q := {[ 1%positive := []; 2%positive := [3%Q] ]} in
  extrapolate_array 1%positive 31 h = (Raise IndexError, h) /\
  extrapolate_array 1%positive (-2) h = (Ok 1%positive, h) /\
  (exists h', extrapolate_array 2%positive 31 h = (Ok 2%positive, h')).
Proof.
  intros h.
  destruct (extrapolate_array_errors h 1%positive [] 31 eq_refl) as (H1 & _ & _).
  destruct (extrapolate_array_errors h 1%positive [] (-2) eq_refl) as (_ & H2 & _).
  destruct (extrapolate_array_errors h 2%positive [3%Q] 31 eq_refl) as (_ & _ & H3).
  split; [apply H1; [reflexivity | lia] | ].
  split; [apply H2; [reflexivity | lia] | ].
  apply H3. discriminate.
Defined.

(** * Properties of calculations.py *)

Local Open Scope Q_scope.

(** [lra] does not divide an expression by a literal: divisions by the
    constants of the code are turned into multiplications first. *)
Ltac const_div :=
  unfold Qdiv in *;
  change (/ 100) with (1 # 100) in *;
  change (/ 12) with (1 # 12) in *.


Lemma Qltb_false (x y : Q) : Qltb x y = false <-> y <= x.
Proof.
  unfold Qltb. rewrite Qle_alt, <- Qgt_alt, Qlt_alt.
  destruct (x ?= y) eqn:E; split; congruence.
Qed.

Lemma salary_band (s : Q) :
  (s - LOWER_INCOME_THRESHOLD) / (UPPER_INCOME_THRESHOLD - LOWER_INCOME_THRESHOLD)
  == (s - 27295) * (1 # 21835).
Proof.
  unfold LOWER_INCOME_THRESHOLD, UPPER_INCOME_THRESHOLD. field.
Qed.




Lemma calculate_annual_interest_rate_nocap (s rpi : Q) :
  calculate_annual_interest_rate s rpi None =
    if Qltb LOWER_INCOME_THRESHOLD s
    then rpi + INTEREST_PREMIUM * premium_share s
    else rpi.
Proof. reflexivity. Qed.





Lemma calculate_monthly_installment_nonneg (monthly_salary : Q) :
  0 <= calculate_monthly_installment monthly_salary.
Proof.
  unfold calculate_monthly_installment, LOWER_INCOME_THRESHOLD, STUDENT_TAX.
  destruct (Q.max_spec 0 (monthly_salary - 27295 / 12)) as [[H ->] | [H ->]];
    const_div; lra.
Qed.

Local Close Scope Q_scope.

(** * Properties of annual_monthly_transformers.py *)

(** ** Running monadic code *)

Lemma bind_ok {A R S} (c : M A R) (k : R -> M A S) h r h' :
  c h = (Ok r, h') -> bind c k h = k r h'.
Proof. intros Hc. unfold bind. rewrite Hc. reflexivity. Qed.

Lemma load_ok {A} (h : heap A) r l : h !! r = Some l -> load r h = (Ok l, h).
Proof. intros Hl. unfold load. rewrite Hl. reflexivity. Qed.

Lemma lift_ok {A R} (c : result R) (h : heap A) r :
  c = Ok r -> lift c h = (Ok r, h).
Proof. intros ->. reflexivity. Qed.

Lemma map_result_ok {A B} (f : A -> result B) (xs : list A) :
  (forall x, In x xs -> exists y, f x = Ok y) ->
  exists ys,
    map_result f xs = Ok ys /\
    length ys = length xs /\
    forall (i : nat) x, xs !! i = Some x ->
      exists y, ys !! i = Some y /\ f x = Ok y.
Proof.
  induction xs as [ | x xs IH]; intros Hf.
  - exists []. repeat split. intros i x Hx. discriminate.
  - destruct (Hf x (or_introl eq_refl)) as (y & Hy).
    destruct IH as (ys & Hys & Hlen & Hpt).
    { intros x' Hin. apply Hf. right. exact Hin. }
    exists (y :: ys). simpl. rewrite Hy. simpl. rewrite Hys. simpl.
    split; [reflexivity | ]. split; [congruence | ].
    intros [ | i] x' Hx'; simpl in Hx'.
    + injection Hx' as <-. exists y. split; [reflexivity | exact Hy].
    + apply Hpt. exact Hx'.
Qed.

(** ** The monthly layout *)

Lemma fold_append_year (rest : list Q) (monthly : list Q) :
  fold_left append_year rest monthly
  = monthly ++ flat_map (fun a => py_repeat 12 (a / 12)%Q) rest.
Proof.
  revert monthly. induction rest as [ | a rest IH]; intros monthly; simpl.
  - rewrite app_nil_r. reflexivity.
  - rewrite IH. unfold append_year. rewrite <- app_assoc. reflexivity.
Qed.

Lemma length_year_blocks (rest : list Q) :
  length (flat_map (fun a => py_repeat 12 (a / 12)%Q) rest)
  = (12 * length rest)%nat.
Proof.
  induction rest as [ | a rest IH]; [reflexivity | ].
  cbn [flat_map]. rewrite length_app, IH. unfold py_repeat.
  rewrite length_replicate. simpl length. lia.
Qed.

Lemma length_monthly_layout (months : Z) (annual : list Q) :
  annual <> [] ->
  len (monthly_layout months annual)
  = Z.max 0 months + 12 * (len annual - 1).
Proof.
  destruct annual as [ | first rest]; [contradiction | intros _].
  unfold monthly_layout, len.
  rewrite length_app, length_year_blocks. unfold py_repeat.
  rewrite length_replicate. simpl length. lia.
Qed.

(** ** [get_monthly_salary_array] *)

Lemma len_padded_salaries (salaries : list Q) :
  salaries <> [] -> len (padded_salaries salaries) = Z.max 31 (len salaries).
Proof.
  intros Hne. destruct (last_nonempty salaries Hne) as (x & Hx).
  unfold padded_salaries, RELIEF_PERDIOD. rewrite Hx.
  destruct (Z.ltb_spec (len salaries) (30 + 1)) as [Hlt | Hge].
  - unfold len, py_repeat in *. rewrite length_app, length_replicate. lia.
  - lia.
Qed.

Lemma padded_salaries_nonempty (salaries : list Q) :
  salaries <> [] -> padded_salaries salaries <> [].
Proof.
  intros Hne Hnil. pose proof (len_padded_salaries salaries Hne) as Hlen.
  rewrite Hnil in Hlen. unfold len in Hlen. simpl in Hlen. lia.
Qed.

Lemma py_index_head {A} (x : A) (l : list A) : py_index (x :: l) 0 = Ok x.
Proof. apply (py_index_nonneg (x :: l) 0%nat x). reflexivity. Qed.

Lemma get_monthly_salary_array_run (h : heap Q) rs salaries cm rev months :
  h !! rs = Some salaries -> salaries <> [] ->
  calculate_months_difference cm rev = Ok months ->
  get_monthly_salary_array rs cm rev h
  = (Ok (monthly_layout months (padded_salaries salaries)),
     <[rs := padded_salaries salaries]> h).
Proof.
  intros Hh Hne Hm.
  pose proof (padded_salaries_nonempty salaries Hne) as Hpne.
  destruct (last_nonempty salaries Hne) as (x & Hx).
  unfold padded_salaries in *. rewrite Hx in *.
  unfold get_monthly_salary_array, bind, load, store, lift, ret.
  rewrite Hh, Hm.
  destruct (len salaries <? RELIEF_PERDIOD + 1).
  - rewrite (py_index_last _ _ Hx), Hh, lookup_insert_eq.
    destruct (salaries ++ py_repeat (RELIEF_PERDIOD - len salaries + 1) x)
      as [ | first rest]; [contradiction | ].
    rewrite py_index_head. simpl drop. rewrite fold_append_year. reflexivity.
  - rewrite Hh.
    destruct salaries as [ | first rest]; [contradiction | ].
    rewrite py_index_head. simpl drop. rewrite fold_append_year.
    rewrite insert_id by exact Hh. reflexivity.
Qed.

(** ** [get_monthly_interest_rate_array] *)

Lemma py_index_range {A} (l : list A) (i n : Z) :
  n <= len l -> In i (py_range n) ->
  exists x, l !! Z.to_nat i = Some x /\ py_index l i = Ok x.
Proof.
  intros Hlen Hin. unfold py_range in Hin.
  apply list_elem_of_In, elem_of_seqZ in Hin. unfold len in Hlen.
  destruct (lookup_lt_is_Some_2 l (Z.to_nat i) ltac:(lia)) as (x & Hx).
  exists x. split; [exact Hx | ].
  rewrite <- (Z2Nat.id i) by lia. apply py_index_nonneg. exact Hx.
Qed.

Lemma annual_rates_loop (salaries rpis : list Q) :
  31 <= len salaries -> 31 <= len rpis ->
  exists rates,
    map_result
      (fun i =>
         let? salary := py_index salaries i in
         let? rpi := py_index rpis i in
         Ok (calculate_annual_interest_rate salary rpi None))
      (py_range (RELIEF_PERDIOD + 1)) = Ok rates /\
    annual_rates_of salaries rpis rates.
Proof.
  intros Hs Hr.
  destruct (map_result_ok
              (fun i =>
                 let? salary := py_index salaries i in
                 let? rpi := py_index rpis i in
                 Ok (calculate_annual_interest_rate salary rpi None))
              (py_range (RELIEF_PERDIOD + 1))) as (rates & Hrun & Hlen & Hpt).
  { intros i Hin.
    destruct (py_index_range salaries i _ Hs Hin) as (s & _ & ->).
    destruct (py_index_range rpis i _ Hr Hin) as (r & _ & ->).
    simpl. eauto. }
  exists rates. split; [exact Hrun | ]. split.
  - rewrite Hlen. reflexivity.
  - intros i Hi.
    assert (Hin : py_range (RELIEF_PERDIOD + 1) !! i = Some (Z.of_nat i)).
    { unfold py_range. rewrite lookup_seqZ. unfold RELIEF_PERDIOD. lia. }
    destruct (Hpt i _ Hin) as (y & Hy & Hf).
    assert (Hmem : In (Z.of_nat i) (py_range (RELIEF_PERDIOD + 1))).
    { apply list_elem_of_In, list_elem_of_lookup. eauto. }
    destruct (py_index_range salaries _ _ Hs Hmem) as (s & Hsl & Hsi).
    destruct (py_index_range rpis _ _ Hr Hmem) as (r & Hrl & Hri).
    rewrite Hsi, Hri in Hf. simpl in Hf. injection Hf as <-.
    rewrite Nat2Z.id in Hsl, Hrl. exists s, r. auto.
Qed.

Lemma get_monthly_interest_rate_array_run (h : heap Q) rs rr salaries rpis cm months :
  h !! rs = Some salaries -> h !! rr = Some rpis ->
  salaries <> [] -> rpis <> [] ->
  calculate_months_difference cm (MonthName "september") = Ok months ->
  exists salaries' rpis' rates h',
    get_monthly_interest_rate_array rs rr cm h
    = (Ok (monthly_layout months rates), h') /\
    h' !! rs = Some salaries' /\ h' !! rr = Some rpis' /\
    annual_rates_of salaries' rpis' rates.
Proof.
  intros Hs Hr Hsne Hrne Hm.
  unfold get_monthly_interest_rate_array.
  rewrite (bind_ok _ _ _ _ _ (extrapolate_array_run h rs salaries _ Hs Hsne)).
  set (e1 := extrapolated salaries (RELIEF_PERDIOD + 1)).
  set (h1 := <[rs := e1]> h).
  assert (He1 : e1 <> [] /\ 31 <= len e1).
  { split; [apply extrapolated_nonempty | apply (extrapolated_length salaries 31)];
      exact Hsne. }
  assert (exists rpis1, h1 !! rr = Some rpis1 /\ rpis1 <> [])
    as (rpis1 & Hr1 & Hr1ne).
  { unfold h1. destruct (decide (rs = rr)) as [-> | Hneq].
    - exists e1. rewrite lookup_insert_eq. tauto.
    - exists rpis. rewrite lookup_insert_ne by exact Hneq. tauto. }
  rewrite (bind_ok _ _ _ _ _ (extrapolate_array_run h1 rr rpis1 _ Hr1 Hr1ne)).
  set (e2 := extrapolated rpis1 (RELIEF_PERDIOD + 1)).
  set (h2 := <[rr := e2]> h1).
  assert (He2 : 31 <= len e2).
  { apply (extrapolated_length rpis1 31). exact Hr1ne. }
  assert (exists salaries', h2 !! rs = Some salaries' /\ 31 <= len salaries')
    as (salaries' & Hs2 & Hs2len).
  { unfold h2, h1. destruct (decide (rr = rs)) as [-> | Hneq].
    - exists e2. rewrite lookup_insert_eq. tauto.
    - exists e1. rewrite lookup_insert_ne by exact Hneq.
      rewrite lookup_insert_eq. tauto. }
  assert (Hr2 : h2 !! rr = Some e2) by (unfold h2; apply lookup_insert_eq).
  rewrite (bind_ok _ _ _ _ _ (load_ok h2 rs _ Hs2)).
  rewrite (bind_ok _ _ _ _ _ (load_ok h2 rr _ Hr2)).
  destruct (annual_rates_loop salaries' e2 Hs2len He2) as (rates & Hrun & Hrates).
  rewrite (bind_ok _ _ _ _ _ (lift_ok _ h2 _ Hrun)).
  rewrite (bind_ok _ _ _ _ _ (lift_ok _ h2 _ Hm)).
  exists salaries', e2, rates, h2.
  split; [ | tauto].
  destruct Hrates as (Hlen & _).
  destruct rates as [ | first rest]; [discriminate | ].
  rewrite (bind_ok _ _ _ _ _ (lift_ok _ h2 _ (py_index_head first rest))).
  unfold ret. simpl drop. rewrite fold_append_year. reflexivity.
Qed.



(** * Properties of simulation.py *)

Local Open Scope Q_scope.

Lemma simulate_loop_app salaries rates d (xs ys : list Z) (st : sim_state) :
  simulate_loop salaries rates d (xs ++ ys) st
  = let? st' := simulate_loop salaries rates d xs st in
    simulate_loop salaries rates d ys st'.
Proof.
  revert st. induction xs as [ | x xs IH]; intros st; simpl; [reflexivity | ].
  destruct (simulate_month salaries rates d st x); simpl; [apply IH | reflexivity].
Qed.

Lemma py_range_succ (n : nat) :
  py_range (Z.of_nat (S n)) = py_range (Z.of_nat n) ++ [Z.of_nat n].
Proof.
  unfold py_range. rewrite Nat2Z.inj_succ, <- Z.add_1_r.
  rewrite seqZ_app by lia. reflexivity.
Qed.

Lemma balance_before_snoc (loan : Q) (balances : list Q) (x : Q) (i : nat) :
  (i <= length balances)%nat ->
  balance_before loan (balances ++ [x]) i = balance_before loan balances i.
Proof.
  destruct i as [ | j]; [reflexivity | ]. intros Hj. simpl.
  rewrite lookup_app_l by lia. reflexivity.
Qed.

Lemma lookup_snoc_old {A} (l : list A) (x : A) (i : nat) (y : A) :
  l !! i = Some y -> (l ++ [x]) !! i = Some y.
Proof. intros Hy. apply lookup_app_l_Some. exact Hy. Qed.

Lemma lookup_snoc_new {A} (l : list A) (x : A) (n : nat) :
  length l = n -> (l ++ [x]) !! n = Some x.
Proof. intros <-. apply list_lookup_middle. reflexivity. Qed.

Lemma month_row_snoc salaries rates d loan reps ints bals r i b (j : nat) :
  (j < length bals)%nat ->
  month_row salaries rates d loan reps ints bals j ->
  month_row salaries rates d loan (reps ++ [r]) (ints ++ [i]) (bals ++ [b]) j.
Proof.
  intros Hj (salary & rate & Hs & Hr & Hi & Hp & Hb).
  exists salary, rate. split; [exact Hs | ]. split; [exact Hr | ].
  cbv zeta. rewrite balance_before_snoc by lia.
  auto using lookup_snoc_old.
Qed.

Lemma simulate_loop_spec salaries rates d loan (n : nat) :
  (n <= length salaries)%nat -> (n <= length rates)%nat ->
  exists st,
    simulate_loop salaries rates d (py_range (Z.of_nat n))
                  (mk_sim_state loan [] [] []) = Ok st /\
    loan_outstanding st = balance_before loan (monthly_balance st) n /\
    amortization salaries rates d loan n
                 (monthly_repayments st) (monthly_interest st) (monthly_balance st).
Proof.
  induction n as [ | n IH]; intros Hs Hr.
  - eexists. split; [reflexivity | ]. split; [reflexivity | ].
    repeat split. intros i Hi. lia.
  - destruct IH as (st & Hrun & Hbal & Hlr & Hli & Hlb & Hrows); [lia | lia | ].
    destruct (lookup_lt_is_Some_2 salaries n ltac:(lia)) as (salary & Hsal).
    destruct (lookup_lt_is_Some_2 rates n ltac:(lia)) as (rate & Hrate).
    rewrite py_range_succ, simulate_loop_app, Hrun. simpl.
    unfold simulate_month.
    rewrite (py_index_nonneg _ _ _ Hrate), (py_index_nonneg _ _ _ Hsal). simpl.
    eexists. split; [reflexivity | ]. simpl.
    split.
    { rewrite Hbal. simpl. rewrite lookup_snoc_new by exact Hlb. reflexivity. }
    split; [rewrite length_app; simpl; lia | ].
    split; [rewrite length_app; simpl; lia | ].
    split; [rewrite length_app; simpl; lia | ].
    intros i Hi. destruct (decide (i = n)) as [-> | Hne].
    + exists salary, rate. split; [exact Hsal | ]. split; [exact Hrate | ].
      cbv zeta. rewrite balance_before_snoc by lia. rewrite <- Hbal.
      auto using lookup_snoc_new.
    + apply month_row_snoc; [lia | ]. apply Hrows. lia.
Qed.

Lemma py_range_to_nat (m : Z) : py_range m = py_range (Z.of_nat (Z.to_nat m)).
Proof. unfold py_range, seqZ. rewrite Nat2Z.id. reflexivity. Qed.

Lemma monthly_series_exist (h : heap Q) rs rr salaries rpis cm :
  h !! rs = Some salaries -> h !! rr = Some rpis ->
  salaries <> [] -> rpis <> [] -> valid_month cm ->
  exists ms mr h', monthly_series h rs rr cm ms mr h'.
Proof.
  intros Hs Hr Hsne Hrne Hcm.
  assert (Hapril : valid_month april) by (simpl; tauto).
  assert (Hsept : valid_month (MonthName "september")) by (simpl; tauto).
  destruct (calculate_months_difference_range cm _ Hcm Hapril) as (ma & Hma & Ra).
  destruct (calculate_months_difference_range cm _ Hcm Hsept) as (mp & Hmp & Rp).
  pose proof (get_monthly_salary_array_run h rs salaries cm april ma Hs Hsne Hma)
    as Hrun1.
  pose proof (padded_salaries_nonempty salaries Hsne) as Hpne.
  set (h1 := <[rs := padded_salaries salaries]> h) in *.
  assert (Hs1 : h1 !! rs = Some (padded_salaries salaries))
    by (unfold h1; apply lookup_insert_eq).
  assert (exists rpis1, h1 !! rr = Some rpis1 /\ rpis1 <> [])
    as (rpis1 & Hr1 & Hr1ne).
  { unfold h1. destruct (decide (rs = rr)) as [-> | Hneq].
    - exists (padded_salaries salaries). rewrite lookup_insert_eq. tauto.
    - exists rpis. rewrite lookup_insert_ne by exact Hneq. tauto. }
  destruct (get_monthly_interest_rate_array_run h1 rs rr _ _ cm mp
              Hs1 Hr1 Hpne Hr1ne Hmp)
    as (salaries' & rpis' & rates & h2 & Hrun2 & _ & _ & Hlen & _).
  exists (monthly_layout ma (padded_salaries salaries)),
         (monthly_layout mp rates), h2, h1.
  split; [exact Hrun1 | ]. split; [exact Hrun2 | ].
  assert (Hne : rates <> []) by (intros ->; discriminate).
  rewrite (length_monthly_layout _ _ Hpne), (len_padded_salaries _ Hsne).
  rewrite (length_monthly_layout _ _ Hne). unfold len. rewrite Hlen. lia.
Qed.

Lemma simulate_repayment_run (h h' : heap Q) rs rr cm ms mr loan (m : Z) d :
  monthly_series h rs rr cm ms mr h' -> (m <= 360)%Z ->
  exists reps ints bals,
    simulate_repayment loan rr rs cm m d h = (Ok (reps, ints, bals), h') /\
    amortization ms mr d loan (Z.to_nat m) reps ints bals.
Proof.
  intros (h1 & Hrun1 & Hrun2 & Hlen1 & Hlen2) Hm.
  destruct (simulate_loop_spec ms mr d loan (Z.to_nat m))
    as (st & Hloop & _ & Ham).
  { unfold len in Hlen1. lia. }
  { unfold len in Hlen2. lia. }
  exists (monthly_repayments st), (monthly_interest st), (monthly_balance st).
  split; [ | exact Ham].
  unfold simulate_repayment.
  rewrite (bind_ok _ _ _ _ _ Hrun1), (bind_ok _ _ _ _ _ Hrun2).
  rewrite py_range_to_nat.
  rewrite (bind_ok _ _ _ _ _ (lift_ok _ h' _ Hloop)). reflexivity.
Qed.


(** Two runs over the same series agree on every month before the first
    index at which their dictionaries differ. *)
Lemma amortization_agree ms mr d d' loan n n' reps ints bals reps' ints' bals'
    (k : nat) :
  amortization ms mr d loan n reps ints bals ->
  amortization ms mr d' loan n' reps' ints' bals' ->
  (k <= n)%nat -> (k <= n')%nat ->
  (forall j : nat, (j < k)%nat -> d !! Z.of_nat j = d' !! Z.of_nat j) ->
  forall j : nat, (j < k)%nat ->
    reps !! j = reps' !! j /\ ints !! j = ints' !! j /\ bals !! j = bals' !! j.
Proof.
  intros (_ & _ & _ & Hrows) (_ & _ & _ & Hrows') Hn Hn' Hd.
  induction j as [j IH] using lt_wf_ind. intros Hj.
  destruct (Hrows j ltac:(lia)) as (salary & rate & Hs & Hr & Hi & Hp & Hb).
  destruct (Hrows' j ltac:(lia)) as (salary' & rate' & Hs' & Hr' & Hi' & Hp' & Hb').
  rewrite Hs in Hs'. injection Hs' as <-.
  rewrite Hr in Hr'. injection Hr' as <-.
  assert (Hprev : balance_before loan bals j = balance_before loan bals' j).
  { destruct j as [ | j']; [reflexivity | ]. simpl.
    destruct (IH j' ltac:(lia) ltac:(lia)) as (_ & _ & ->). reflexivity. }
  assert (Hdisc : forall x, with_discretionary d (Z.of_nat j) x
                            = with_discretionary d' (Z.of_nat j) x).
  { intros x. unfold with_discretionary. rewrite (Hd j Hj). reflexivity. }
  rewrite Hi, Hp, Hb, Hi', Hp', Hb', Hprev, Hdisc. auto.
Qed.

Section Simulation.

Variables (h : heap Q) (rs rr : loc) (salaries rpis : list Q).
Variable cm : month_ref.
Hypothesis Hsalaries : h !! rs = Some salaries.
Hypothesis Hrpis : h !! rr = Some rpis.
Hypothesis Hsalaries_ne : salaries <> [].
Hypothesis Hrpis_ne : rpis <> [].
Hypothesis Hcm : valid_month cm.

Variables (loan : Q) (m : Z) (d : gmap Z Q).
Hypothesis Hm : (m <= 360)%Z.


(** C7, amended. Take a month [k] below the horizon and an amount [X],
    and compare the run whose dictionary maps [k] to [X] with the run
    whose dictionary has no key [k] and is the same elsewhere.  The two
    runs record the same values for every month before [k].  At month [k],
    if the cap is inactive in both runs (which, for [0 <= X], is implied
    by its being inactive in the run with the entry), the repayment with
    the entry exceeds the repayment without it by [X]. *)
Theorem discretionary_repayment_effect (k : nat) (X : Q) :
  (Z.of_nat k < m)%Z ->
  exists ms mr h' reps0 ints0 bals0 reps1 ints1 bals1,
    monthly_series h rs rr cm ms mr h' /\
    simulate_repayment loan rr rs cm m (delete (Z.of_nat k) d) h
      = (Ok (reps0, ints0, bals0), h') /\
    simulate_repayment loan rr rs cm m (<[Z.of_nat k := X]> d) h
      = (Ok (reps1, ints1, bals1), h') /\
    (forall j : nat, (j < k)%nat ->
       reps1 !! j = reps0 !! j /\ ints1 !! j = ints0 !! j /\
       bals1 !! j = bals0 !! j) /\
    exists salary rate r0 r1,
      ms !! k = Some salary /\ mr !! k = Some rate /\
      reps0 !! k = Some r0 /\ reps1 !! k = Some r1 /\
      let balance := balance_before loan bals1 k in
      let interest := calculate_monthly_interest balance rate in
      let installment := calculate_monthly_installment salary in
      (installment + X <= balance + interest ->
       installment <= balance + interest -> r1 == r0 + X) /\
      (installment + X <= balance + interest -> 0 <= X -> r1 == r0 + X).
Proof using All.
  intros Hk.
  destruct (monthly_series_exist h rs rr salaries rpis cm
              Hsalaries Hrpis Hsalaries_ne Hrpis_ne Hcm) as (ms & mr & h' & Hser).
  destruct (simulate_repayment_run h h' rs rr cm ms mr loan m
              (delete (Z.of_nat k) d) Hser Hm)
    as (reps0 & ints0 & bals0 & Hrun0 & Ham0).
  destruct (simulate_repayment_run h h' rs rr cm ms mr loan m
              (<[Z.of_nat k := X]> d) Hser Hm)
    as (reps1 & ints1 & bals1 & Hrun1 & Ham1).
  exists ms, mr, h', reps0, ints0, bals0, reps1, ints1, bals1.
  split; [exact Hser | ]. split; [exact Hrun0 | ]. split; [exact Hrun1 | ].
  assert (Hsame : forall j : nat, (j < k)%nat ->
            reps1 !! j = reps0 !! j /\ ints1 !! j = ints0 !! j /\
            bals1 !! j = bals0 !! j).
  { apply (amortization_agree ms mr _ _ loan _ _ _ _ _ _ _ _ k Ham1 Ham0);
      try lia.
    intros j Hj. rewrite lookup_insert_ne, lookup_delete_ne by lia.
    reflexivity. }
  split; [exact Hsame | ].
  destruct Ham0 as (_ & _ & _ & Hrows0). destruct Ham1 as (_ & _ & _ & Hrows1).
  destruct (Hrows0 k ltac:(lia)) as (salary & rate & Hs & Hr & _ & Hp0 & _).
  destruct (Hrows1 k ltac:(lia)) as (salary' & rate' & Hs' & Hr' & _ & Hp1 & _).
  rewrite Hs in Hs'. injection Hs' as <-.
  rewrite Hr in Hr'. injection Hr' as <-.
  assert (Hprev : balance_before loan bals0 k = balance_before loan bals1 k).
  { destruct k as [ | k']; [reflexivity | ]. simpl.
    destruct (Hsame k' ltac:(lia)) as (_ & _ & ->). reflexivity. }
  unfold with_discretionary in Hp0, Hp1.
  rewrite lookup_delete_eq, Hprev in Hp0. rewrite lookup_insert_eq in Hp1.
  exists salary, rate. eexists. eexists.
  split; [exact Hs | ]. split; [exact Hr | ].
  split; [exact Hp0 | ]. split; [exact Hp1 | ].
  cbv zeta.
  set (total := balance_before loan bals1 k
                + calculate_monthly_interest (balance_before loan bals1 k) rate).
  set (installment := calculate_monthly_installment salary).
  assert (Hboth : installment + X <= total -> installment <= total ->
                  Qmin (installment + X) total == Qmin installment total + X).
  { intros H1 H0. rewrite (Q.min_l _ _ H1), (Q.min_l _ _ H0). reflexivity. }
  split; [exact Hboth | ].
  intros H1 HX. apply Hboth; [exact H1 | lra].
Qed.


End Simulation.

(** ** Concrete runs *)


(** C7, as stated, fails on the code for a negative amount: with a loan of
    10, a first-month installment of about 20.29 and the entry [0 -> -15],
    the cap is inactive in the run with the entry (repayment about 5.29) and
    active in the run without it (repayment about 10.02), so the two
    repayments differ by about -4.73 and not by -15. *)
Lemma discretionary_negative_amount_counterexample :
  exists ms mr h' reps0 ints0 bals0 reps1 ints1 bals1 salary rate r0 r1,
    monthly_series example_store 1%positive 2%positive (MonthNum 1) ms mr h' /\
    simulate_repayment 10 2%positive 1%positive (MonthNum 1) 1
                       (delete 0%Z (∅ : gmap Z Q)) example_store
      = (Ok (reps0, ints0, bals0), h') /\
    simulate_repayment 10 2%positive 1%positive (MonthNum 1) 1
                       (<[0%Z := - (15)]> (∅ : gmap Z Q)) example_store
      = (Ok (reps1, ints1, bals1), h') /\
    ms !! 0%nat = Some salary /\ mr !! 0%nat = Some rate /\
    reps0 !! 0%nat = Some r0 /\ reps1 !! 0%nat = Some r1 /\
    calculate_monthly_installment salary + - (15)
      <= 10 + calculate_monthly_interest 10 rate /\
    ~ r1 == r0 + - (15).
Proof.
  do 13 eexists.
  split.
  { eexists. split; [reflexivity | ]. split; [reflexivity | ].
    split; vm_compute; discriminate. }
  split; [reflexivity | ]. split; [reflexivity | ].
  split; [reflexivity | ]. split; [reflexivity | ].
  split; [reflexivity | ]. split; [reflexivity | ].
  split; vm_compute; discriminate.
Qed.

Lemma discretionary_repayment_effect_witness :
  exists ms mr h' reps0 ints0 bals0 reps1 ints1 bals1,
    monthly_series example_store 1%positive 2%positive (MonthNum 1) ms mr h' /\
    simulate_repayment 40000 2%positive 1%positive (MonthNum 1) 3
                       (delete (Z.of_nat 1) (∅ : gmap Z Q)) example_store
      = (Ok (reps0, ints0, bals0), h') /\
    simulate_repayment 40000 2%positive 1%positive (MonthNum 1) 3
                       (<[Z.of_nat 1 := 50]> (∅ : gmap Z Q)) example_store
      = (Ok (reps1, ints1, bals1), h') /\
    (forall j : nat, (j < 1)%nat ->
       reps1 !! j = reps0 !! j /\ ints1 !! j = ints0 !! j /\
       bals1 !! j = bals0 !! j) /\
    exists salary rate r0 r1,
      ms !! 1%nat = Some salary /\ mr !! 1%nat = Some rate /\
      reps0 !! 1%nat = Some r0 /\ reps1 !! 1%nat = Some r1 /\
      let balance := balance_before 40000 bals1 1 in
      let interest := calculate_monthly_interest balance rate in
      let installment := calculate_monthly_installment salary in
      (installment + 50 <= balance + interest ->
       installment <= balance + interest -> r1 == r0 + 50) /\
      (installment + 50 <= balance + interest -> 0 <= 50 -> r1 == r0 + 50).
Proof.
  apply (discretionary_repayment_effect example_store 1%positive 2%positive
           [30000; 31000] [2] (MonthNum 1)).
  - reflexivity.
  - reflexivity.
  - discriminate.
  - discriminate.
  - simpl. lia.
  - lia.
  - lia.
Defined.


Local Close Scope Q_scope.

(** * The simulation in binary64 arithmetic

    The balance recorded for a month is [total - min(installment, total)],
    [total] being [balance + interest].  In exact arithmetic it is never
    negative.  On floats the subtraction of two finite numbers rounds a
    difference of integers at a common exponent, which keeps its sign, so the
    same holds as long as [total] is finite; an infinite or nan [total]
    breaks it. *)

(** ** Rounding keeps the sign *)

Lemma shr_1_sign mrs : 0 <= shr_m mrs -> 0 <= shr_m (shr_1 mrs).
Proof.
  destruct mrs as [m r s]. simpl.
  destruct m as [ | [p | p | ] | [p | p | ]]; simpl; lia.
Qed.

Lemma iter_pos_invariant {A} (P : A -> Prop) (f : A -> A) :
  (forall x, P x -> P (f x)) -> forall n x, P x -> P (SpecFloat.iter_pos f n x).
Proof.
  intros Hf. induction n as [n IH | n IH | ]; intros x Hx; simpl; auto.
Qed.

Lemma shr_fexp_nonneg prec emax m e l :
  0 <= m -> 0 <= shr_m (fst (shr_fexp prec emax m e l)).
Proof.
  intros Hm. unfold shr_fexp, shr.
  assert (H0 : 0 <= shr_m (shr_record_of_loc m l)).
  { destruct l as [ | [ | | ]]; exact Hm. }
  destruct (fexp prec emax (Zdigits2 m + e) - e); simpl; try exact H0.
  apply (iter_pos_invariant (fun r => 0 <= shr_m r)); [apply shr_1_sign | exact H0].
Qed.

Lemma round_nearest_even_nonneg m l : 0 <= m -> 0 <= round_nearest_even m l.
Proof.
  intros Hm. unfold round_nearest_even.
  destruct l as [ | [ | | ]]; try lia. destruct (Z.even m); lia.
Qed.

Lemma binary_round_aux_signed prec emax sx mx ex lx :
  0 <= mx -> sf_signed sx (binary_round_aux prec emax sx mx ex lx).
Proof.
  intros Hm. unfold binary_round_aux.
  pose proof (shr_fexp_nonneg prec emax mx ex lx Hm) as H1.
  destruct (shr_fexp prec emax mx ex lx) as [mrs' e']. simpl in H1.
  pose proof (shr_fexp_nonneg prec emax
                (round_nearest_even (shr_m mrs') (loc_of_shr_record mrs')) e' loc_Exact
                (round_nearest_even_nonneg _ _ H1)) as H2.
  destruct (shr_fexp prec emax _ e' loc_Exact) as [mrs'' e'']. simpl in H2.
  destruct (shr_m mrs'') as [ | m | m]; simpl.
  - reflexivity.
  - destruct (e'' <=? emax - prec); reflexivity.
  - lia.
Qed.

Lemma binary_normalize_signed prec emax z e :
  match z with
  | Z0 => binary_normalize prec emax z e false = S754_zero false
  | Zpos _ => sf_signed false (binary_normalize prec emax z e false)
  | Zneg _ => sf_signed true (binary_normalize prec emax z e false)
  end.
Proof.
  destruct z as [ | m | m]; simpl; [reflexivity | | ];
    unfold binary_round; destruct (shl_align _ _ _) as [mz ez];
    apply binary_round_aux_signed; lia.
Qed.

Lemma Zpos_iter_xO (m d : positive) :
  Zpos (Pos.iter xO m d) = Zpos m * 2 ^ Zpos d.
Proof.
  induction d as [ | d IH] using Pos.peano_ind.
  - simpl. lia.
  - rewrite Pos.iter_succ, Pos2Z.inj_xO, IH, Pos2Z.inj_succ, Z.pow_succ_r by lia.
    lia.
Qed.

Lemma shl_align_value (mx : positive) (ex ez : Z) :
  ez <= ex -> Zpos (fst (shl_align mx ex ez)) = Zpos mx * 2 ^ (ex - ez).
Proof.
  intros Hle. unfold shl_align.
  destruct (ez - ex) as [ | d | d] eqn:E; simpl.
  - replace (ex - ez) with 0 by lia. simpl. lia.
  - lia.
  - rewrite Zpos_iter_xO. replace (ex - ez) with (Zpos d) by lia. reflexivity.
Qed.

Lemma digits2_pos_bounds (m : positive) :
  2 ^ (Zpos (digits2_pos m) - 1) <= Zpos m < 2 ^ Zpos (digits2_pos m).
Proof.
  induction m as [m IH | m IH | ]; simpl digits2_pos.
  - rewrite Pos2Z.inj_succ. replace (Z.succ (Zpos (digits2_pos m)) - 1)
      with (Z.succ (Zpos (digits2_pos m) - 1)) by lia.
    rewrite !Z.pow_succ_r by lia. lia.
  - rewrite Pos2Z.inj_succ. replace (Z.succ (Zpos (digits2_pos m)) - 1)
      with (Z.succ (Zpos (digits2_pos m) - 1)) by lia.
    rewrite !Z.pow_succ_r by lia. lia.
  - simpl. lia.
Qed.

(** mantissa and exponent of a canonical binary64 number *)
Lemma canonical_bounds (m : positive) (e : Z) :
  canonical_mantissa prec emax m e = true ->
  SpecFloat.emin prec emax <= e /\ Zpos m < 2 ^ prec /\
  (SpecFloat.emin prec emax < e -> 2 ^ (prec - 1) <= Zpos m).
Proof.
  unfold canonical_mantissa, fexp. intros H. apply Z.eqb_eq in H.
  pose proof (digits2_pos_bounds m) as [Hlo Hhi].
  assert (Hd : Zpos (digits2_pos m) <= prec) by lia.
  split; [lia | ]. split.
  - apply Z.lt_le_trans with (1 := Hhi). apply Z.pow_le_mono_r; lia.
  - intros He. assert (Zpos (digits2_pos m) = prec) as <- by lia. exact Hlo.
Qed.

(** comparing magnitudes as the code of [SFcompare] does agrees with
    comparing the aligned mantissas *)
Lemma magnitude_compare (mx my : positive) (ex ey : Z) :
  canonical_mantissa prec emax mx ex = true ->
  canonical_mantissa prec emax my ey = true ->
  match ex ?= ey with
  | Lt => Lt
  | Gt => Gt
  | Eq => Pos.compare_cont Eq mx my
  end
  = (Zpos (fst (shl_align mx ex (Z.min ex ey)))
     ?= Zpos (fst (shl_align my ey (Z.min ex ey)))).
Proof.
  intros Hx Hy.
  destruct (canonical_bounds mx ex Hx) as (Hex & Hmx & Hnx).
  destruct (canonical_bounds my ey Hy) as (Hey & Hmy & Hny).
  rewrite !shl_align_value by lia.
  destruct (Z.compare_spec ex ey) as [Heq | Hlt | Hgt].
  - subst ey. rewrite Z.min_id, Z.sub_diag. simpl (2 ^ 0). rewrite !Z.mul_1_r.
    reflexivity.
  - rewrite Z.min_l by lia. rewrite Z.sub_diag. simpl (2 ^ 0). rewrite Z.mul_1_r.
    symmetry. apply Z.compare_lt_iff.
    specialize (Hny ltac:(lia)).
    assert (H2 : 2 ^ 1 <= 2 ^ (ey - ex)) by (apply Z.pow_le_mono_r; lia).
    assert (Hp : 2 ^ prec = 2 ^ (prec - 1) * 2 ^ 1)
      by (rewrite <- Z.pow_add_r by (unfold prec; lia); f_equal; lia).
    nia.
  - rewrite Z.min_r by lia. rewrite Z.sub_diag. simpl (2 ^ 0). rewrite Z.mul_1_r.
    symmetry. apply Z.compare_gt_iff.
    specialize (Hnx ltac:(lia)).
    assert (H2 : 2 ^ 1 <= 2 ^ (ex - ey)) by (apply Z.pow_le_mono_r; lia).
    assert (Hp : 2 ^ prec = 2 ^ (prec - 1) * 2 ^ 1)
      by (rewrite <- Z.pow_add_r by (unfold prec; lia); f_equal; lia).
    nia.
Qed.

Lemma SFcompare_finite sx mx ex sy my ey :
  canonical_mantissa prec emax mx ex = true ->
  canonical_mantissa prec emax my ey = true ->
  SFcompare (S754_finite sx mx ex) (S754_finite sy my ey)
  = Some (aligned sx mx ex (Z.min ex ey) ?= aligned sy my ey (Z.min ex ey)).
Proof.
  intros Hx Hy. pose proof (magnitude_compare mx my ex ey Hx Hy) as Hm.
  unfold aligned, cond_Zopp.
  destruct sx, sy; unfold SFcompare; cbv beta iota;
    try reflexivity; apply f_equal.
  - rewrite Z.compare_opp, (Z.compare_antisym (Zpos (fst (shl_align mx ex _)))).
    rewrite <- Hm. destruct (ex ?= ey); reflexivity.
  - exact Hm.
Qed.

Lemma valid_finite s m e :
  valid_binary (S754_finite s m e) = true ->
  canonical_mantissa prec emax m e = true.
Proof. simpl. unfold bounded. intros H. apply andb_true_iff in H. tauto. Qed.

Lemma SFsub_finite_sign sx mx ex sy my ey :
  let d := aligned sx mx ex (Z.min ex ey) - aligned sy my ey (Z.min ex ey) in
  match d with
  | Z0 => SF64sub (S754_finite sx mx ex) (S754_finite sy my ey) = S754_zero false
  | Zpos _ => sf_signed false (SF64sub (S754_finite sx mx ex) (S754_finite sy my ey))
  | Zneg _ => sf_signed true (SF64sub (S754_finite sx mx ex) (S754_finite sy my ey))
  end.
Proof.
  apply (binary_normalize_signed prec emax
           (aligned sx mx ex (Z.min ex ey) - aligned sy my ey (Z.min ex ey))
           (Z.min ex ey)).
Qed.

Lemma sf_signed_nonneg r : sf_signed false r -> sf_nonneg r.
Proof. destruct r as [s | s | | s m e]; simpl; try tauto; intros ->; exact I. Qed.

Lemma sf_signed_nonpos r : sf_signed true r -> sf_nonpos r.
Proof. destruct r as [s | s | | s m e]; simpl; try tauto; intros ->; exact I. Qed.

Ltac sf_cases :=
  match goal with
  | |- context [SF64sub (S754_finite _ _ _) (S754_finite _ _ _)] => idtac
  | _ => repeat match goal with s : bool |- _ => destruct s end;
         simpl in *; try discriminate; try exact I
  end.

Lemma SFsub_nonneg X Y :
  valid_binary X = true -> valid_binary Y = true ->
  sf_finite X = true -> sf_nan Y = false ->
  SFltb X Y = false -> sf_nonneg (SF64sub X Y).
Proof.
  intros Vx Vy Fx Ny Hlt.
  destruct X as [sx | sx | | sx mx ex]; destruct Y as [sy | sy | | sy my ey];
    sf_cases.
  unfold SFltb in Hlt.
  rewrite (SFcompare_finite _ _ _ _ _ _ (valid_finite _ _ _ Vx) (valid_finite _ _ _ Vy))
    in Hlt.
  pose proof (SFsub_finite_sign sx mx ex sy my ey) as Hs. cbv zeta in Hs.
  destruct (Z.compare_spec (aligned sx mx ex (Z.min ex ey))
                           (aligned sy my ey (Z.min ex ey))) as [He | Hl | Hg];
    try discriminate.
  - rewrite He, Z.sub_diag in Hs. rewrite Hs. exact I.
  - destruct (aligned sx mx ex (Z.min ex ey) - aligned sy my ey (Z.min ex ey))
      as [ | d | d] eqn:E; try lia.
    apply sf_signed_nonneg. exact Hs.
Qed.

Lemma SFsub_nonpos X Y :
  valid_binary X = true -> valid_binary Y = true ->
  sf_finite X = true -> SFltb X Y = true -> sf_nonpos (SF64sub X Y).
Proof.
  intros Vx Vy Fx Hlt.
  destruct X as [sx | sx | | sx mx ex]; destruct Y as [sy | sy | | sy my ey];
    sf_cases.
  unfold SFltb in Hlt.
  rewrite (SFcompare_finite _ _ _ _ _ _ (valid_finite _ _ _ Vx) (valid_finite _ _ _ Vy))
    in Hlt.
  pose proof (SFsub_finite_sign sx mx ex sy my ey) as Hs. cbv zeta in Hs.
  destruct (Z.compare_spec (aligned sx mx ex (Z.min ex ey))
                           (aligned sy my ey (Z.min ex ey))) as [He | Hl | Hg];
    try discriminate.
  destruct (aligned sx mx ex (Z.min ex ey) - aligned sy my ey (Z.min ex ey))
    as [ | d | d] eqn:E; try lia.
  apply sf_signed_nonpos. exact Hs.
Qed.

Lemma SFsub_self X :
  sf_finite X = true -> SF64sub X X = S754_zero false.
Proof.
  destruct X as [sx | sx | | sx mx ex]; try discriminate; intros _.
  - destruct sx; reflexivity.
  - pose proof (SFsub_finite_sign sx mx ex sx mx ex) as Hs. cbv zeta in Hs.
    rewrite Z.sub_diag in Hs. exact Hs.
Qed.

(** ** Signs of products, quotients and sums *)

Lemma SFmul_positive X my ey :
  sf_signed false X -> sf_signed false (SF64mul X (S754_finite false my ey)).
Proof.
  destruct X as [s | s | | s m e]; simpl; try tauto; intros ->; try reflexivity.
  apply binary_round_aux_signed. lia.
Qed.

Lemma SFdiv_core_nonneg mx ex my ey :
  0 <= fst (fst (SFdiv_core_binary prec emax (Zpos mx) ex (Zpos my) ey)).
Proof.
  unfold SFdiv_core_binary.
  set (s := _ - _ - _).
  set (m' := match s with Z0 => Zpos mx | Zpos _ => Z.shiftl (Zpos mx) s | Zneg _ => 0 end).
  assert (Hm : 0 <= m').
  { unfold m'. destruct s; try lia. apply Z.shiftl_nonneg. lia. }
  pose proof (Z.div_pos m' (Zpos my) Hm ltac:(lia)) as Hq.
  unfold Z.div in Hq. destruct (Z.div_eucl m' (Zpos my)) as [q r]. exact Hq.
Qed.

Lemma SFdiv_positive X my ey :
  sf_signed false X -> sf_signed false (SF64div X (S754_finite false my ey)).
Proof.
  destruct X as [s | s | | s m e]; simpl; try tauto; intros ->; try reflexivity.
  pose proof (SFdiv_core_nonneg m e my ey) as Hq.
  unfold SF64div, SFdiv.
  destruct (SFdiv_core_binary prec emax (Zpos m) e (Zpos my) ey) as [[mz ez] lz].
  apply binary_round_aux_signed. exact Hq.
Qed.

Lemma SFadd_nonneg X Y :
  sf_signed false X -> sf_nonneg Y -> sf_nonneg (SF64add X Y).
Proof.
  destruct X as [sx | sx | | sx mx ex]; simpl; try tauto; intros ->;
    destruct Y as [sy | sy | | sy my ey]; simpl; try tauto;
    try destruct sy; simpl; try tauto.
  intros _. apply sf_signed_nonneg.
  pose proof (binary_normalize_signed prec emax
                (Zpos (fst (shl_align mx ex (Z.min ex ey)))
                 + Zpos (fst (shl_align my ey (Z.min ex ey)))) (Z.min ex ey)) as Hs.
  simpl in Hs. exact Hs.
Qed.

(** ** Primitive floats *)

Local Open Scope float_scope.

Lemma SFcompare_refl X : sf_nan X = false -> SFcompare X X = Some Eq.
Proof.
  destruct X as [s | s | | s m e]; try discriminate; intros _;
    try (destruct s; reflexivity).
  unfold SFcompare. destruct s; rewrite Z.compare_refl, Pos.compare_cont_refl;
    reflexivity.
Qed.

Lemma is_nan_spec (x : float) : is_nan x = sf_nan (Prim2SF x).
Proof.
  unfold is_nan. rewrite FloatAxioms.eqb_spec. unfold SFeqb.
  destruct (sf_nan (Prim2SF x)) eqn:E.
  - destruct (Prim2SF x); try discriminate. reflexivity.
  - rewrite (SFcompare_refl _ E). reflexivity.
Qed.

Lemma is_finite_spec (x : float) : is_finite x = sf_finite (Prim2SF x).
Proof.
  unfold is_finite, is_infinity. rewrite is_nan_spec, FloatAxioms.eqb_spec, FloatAxioms.abs_spec.
  change (Prim2SF infinity) with (S754_infinity false).
  destruct (Prim2SF x) as [s | s | | s m e]; reflexivity.
Qed.

Lemma leb_zero_spec (x : float) : (0 <=? x) = true <-> sf_nonneg (Prim2SF x).
Proof.
  rewrite FloatAxioms.leb_spec. change (Prim2SF 0) with (S754_zero false).
  destruct (Prim2SF x) as [s | s | | s m e]; simpl; try destruct s; simpl;
    intuition discriminate.
Qed.

Lemma leb_zero_r_spec (x : float) : (x <=? 0) = true <-> sf_nonpos (Prim2SF x).
Proof.
  rewrite FloatAxioms.leb_spec. change (Prim2SF 0) with (S754_zero false).
  destruct (Prim2SF x) as [s | s | | s m e]; simpl; try destruct s; simpl;
    intuition discriminate.
Qed.

(** for a finite [x] and a [y] that is no nan, [x - y] is not negative
    unless [x < y] *)
Lemma f64_sub_nonneg (x y : float) :
  is_finite x = true -> is_nan y = false -> (x <? y) = false ->
  (0 <=? x - y) = true.
Proof.
  rewrite is_finite_spec, is_nan_spec, FloatAxioms.ltb_spec. intros Fx Ny Hlt.
  apply leb_zero_spec. rewrite FloatAxioms.sub_spec.
  apply SFsub_nonneg; auto using Prim2SF_valid.
Qed.

Lemma f64_sub_nonpos (x y : float) :
  is_finite x = true -> (x <? y) = true -> (x - y <=? 0) = true.
Proof.
  rewrite is_finite_spec, FloatAxioms.ltb_spec. intros Fx Hlt.
  apply leb_zero_r_spec. rewrite FloatAxioms.sub_spec.
  apply SFsub_nonpos; auto using Prim2SF_valid.
Qed.

Lemma f64_sub_self (x : float) : is_finite x = true -> x - x = 0.
Proof.
  rewrite is_finite_spec. intros Fx. apply Prim2SF_inj.
  rewrite FloatAxioms.sub_spec, (SFsub_self _ Fx). reflexivity.
Qed.

Lemma sf_nonneg_not_nan X : sf_nonneg X -> sf_nan X = false.
Proof. destruct X as [s | s | | s m e]; simpl; tauto. Qed.

Lemma py_max_zero_signed (x : float) : sf_signed false (Prim2SF (F64.py_max 0 x)).
Proof.
  unfold F64.py_max. destruct (0 <? x) eqn:E; [ | reflexivity].
  rewrite FloatAxioms.ltb_spec in E. change (Prim2SF 0) with (S754_zero false) in E.
  destruct (Prim2SF x) as [s | s | | s m e]; try discriminate;
    destruct s; try discriminate; reflexivity.
Qed.

(** The installment is a number that is not negative, for every float
    given as salary, nan and the infinities included. *)
Lemma f64_installment_signed (monthly_salary : float) :
  sf_signed false (Prim2SF (F64.calculate_monthly_installment monthly_salary)).
Proof.
  unfold F64.calculate_monthly_installment, F64.STUDENT_TAX.
  rewrite FloatAxioms.div_spec, FloatAxioms.mul_spec.
  assert (H9 : exists m e, Prim2SF 9 = S754_finite false m e)
    by (vm_compute; eauto).
  assert (H100 : exists m e, Prim2SF 100 = S754_finite false m e)
    by (vm_compute; eauto).
  destruct H9 as (m9 & e9 & ->). destruct H100 as (m100 & e100 & ->).
  apply SFdiv_positive, SFmul_positive, py_max_zero_signed.
Qed.

Lemma f64_with_discretionary_not_nan (d : gmap Z float) (i : Z) (salary : float) :
  (forall x, d !! i = Some x -> (0 <=? x) = true) ->
  is_nan (F64.with_discretionary d i (F64.calculate_monthly_installment salary))
  = false.
Proof.
  intros Hd. rewrite is_nan_spec. apply sf_nonneg_not_nan.
  pose proof (f64_installment_signed salary) as Hs.
  unfold F64.with_discretionary. destruct (d !! i) as [x | ].
  - rewrite FloatAxioms.add_spec. apply SFadd_nonneg; [exact Hs | ].
    apply leb_zero_spec. apply Hd. reflexivity.
  - apply sf_signed_nonneg. exact Hs.
Qed.

Lemma f64_nonneg_ltb_zero (x : float) : (0 <=? x) = true -> (x <? 0) = false.
Proof.
  intros H. apply leb_zero_spec in H. rewrite FloatAxioms.ltb_spec.
  change (Prim2SF 0) with (S754_zero false).
  destruct (Prim2SF x) as [s | s | | s m e]; simpl in *; try tauto;
    destruct s; simpl in *; tauto.
Qed.

Lemma f64_nonneg_eqb_refl (x : float) : (0 <=? x) = true -> (x =? x) = true.
Proof.
  intros H. apply leb_zero_spec, sf_nonneg_not_nan in H.
  rewrite FloatAxioms.eqb_spec. unfold SFeqb. rewrite (SFcompare_refl _ H).
  reflexivity.
Qed.

Lemma f64_nonpos_eqb_zero (x : float) :
  (x <=? 0) = true -> (x <? 0) = false -> (0 =? x) = true.
Proof.
  intros Hle Hlt. apply leb_zero_r_spec in Hle.
  rewrite FloatAxioms.ltb_spec in Hlt. rewrite FloatAxioms.eqb_spec.
  change (Prim2SF 0) with (S754_zero false) in *.
  destruct (Prim2SF x) as [s | s | | s m e]; simpl in *; try tauto;
    destruct s; simpl in *; try tauto; discriminate.
Qed.

(** The cap at work: from a finite [total] and an installment that is a
    number, the new balance is not negative, and it equals
    [max (total - installment) 0]. *)
Lemma f64_capped_balance (installment total : float) :
  is_finite total = true -> is_nan installment = false ->
  (0 <=? total - F64.py_min installment total) = true /\
  (total - F64.py_min installment total
   =? F64.py_max (total - installment) 0) = true.
Proof.
  intros Hfin Hnan. unfold F64.py_min, F64.py_max.
  destruct (total <? installment) eqn:E.
  - rewrite (f64_sub_self _ Hfin). split; [reflexivity | ].
    pose proof (f64_sub_nonpos _ _ Hfin E) as Hle.
    destruct (total - installment <? 0) eqn:E0; [reflexivity | ].
    apply f64_nonpos_eqb_zero; assumption.
  - pose proof (f64_sub_nonneg _ _ Hfin Hnan E) as Hge.
    split; [exact Hge | ].
    rewrite (f64_nonneg_ltb_zero _ Hge). apply f64_nonneg_eqb_refl. exact Hge.
Qed.

Local Close Scope float_scope.

(** ** Running the float model *)

Lemma f64_length_fold_append_year (rest monthly : list float) :
  length (fold_left F64.append_year rest monthly)
  = (length monthly + 12 * length rest)%nat.
Proof.
  revert monthly. induction rest as [ | a rest IH]; intros monthly; simpl.
  - lia.
  - rewrite IH. unfold F64.append_year, py_repeat.
    rewrite length_app, length_replicate. lia.
Qed.

Lemma f64_len_monthly (l : list float) (months : Z) (x : float) :
  31 <= len l ->
  360 <= len (fold_left F64.append_year (drop 1 l) (py_repeat months x)).
Proof.
  unfold len. intros Hl. rewrite f64_length_fold_append_year, length_drop. lia.
Qed.

Lemma f64_get_monthly_salary_array_run (h : heap float) rs salaries cm rev months :
  h !! rs = Some salaries -> salaries <> [] ->
  calculate_months_difference cm rev = Ok months ->
  exists ms salaries',
    F64.get_monthly_salary_array rs cm rev h = (Ok ms, <[rs := salaries']> h) /\
    salaries' <> [] /\ 360 <= len ms.
Proof.
  intros Hh Hne Hm.
  destruct (last_nonempty salaries Hne) as (x & Hx).
  unfold F64.get_monthly_salary_array, bind, load, store, lift, ret.
  rewrite Hh, Hm.
  destruct (Z.ltb_spec (len salaries) (RELIEF_PERDIOD + 1)) as [Hlt | Hge].
  - rewrite (py_index_last _ _ Hx), Hh, lookup_insert_eq.
    set (l := salaries ++ py_repeat (RELIEF_PERDIOD - len salaries + 1) x).
    assert (Hl : 31 <= len l).
    { unfold l, len, py_repeat, RELIEF_PERDIOD in *.
      rewrite length_app, length_replicate. lia. }
    destruct l as [ | first rest] eqn:El; [unfold len in Hl; simpl in Hl; lia | ].
    rewrite py_index_head. eexists. exists (first :: rest).
    split; [reflexivity | ]. split; [discriminate | ].
    apply f64_len_monthly. exact Hl.
  - rewrite Hh.
    destruct salaries as [ | first rest] eqn:El; [contradiction | ].
    rewrite py_index_head. eexists. exists (first :: rest).
    split; [rewrite insert_id by exact Hh; reflexivity | ].
    split; [discriminate | ].
    apply f64_len_monthly. unfold RELIEF_PERDIOD in Hge. lia.
Qed.

Lemma f64_annual_rates_loop (salaries rpis : list float) :
  31 <= len salaries -> 31 <= len rpis ->
  exists rates,
    map_result
      (fun i =>
         let? salary := py_index salaries i in
         let? rpi := py_index rpis i in
         Ok (F64.calculate_annual_interest_rate salary rpi None))
      (py_range (RELIEF_PERDIOD + 1)) = Ok rates /\
    length rates = 31%nat.
Proof.
  intros Hs Hr.
  destruct (map_result_ok
              (fun i =>
                 let? salary := py_index salaries i in
                 let? rpi := py_index rpis i in
                 Ok (F64.calculate_annual_interest_rate salary rpi None))
              (py_range (RELIEF_PERDIOD + 1))) as (rates & Hrun & Hlen & _).
  { intros i Hin.
    destruct (py_index_range salaries i _ Hs Hin) as (s & _ & ->).
    destruct (py_index_range rpis i _ Hr Hin) as (r & _ & ->).
    simpl. eauto. }
  exists rates. split; [exact Hrun | ]. rewrite Hlen. reflexivity.
Qed.

Lemma f64_get_monthly_interest_rate_array_run (h : heap float) rs rr salaries rpis
    cm months :
  h !! rs = Some salaries -> h !! rr = Some rpis ->
  salaries <> [] -> rpis <> [] ->
  calculate_months_difference cm (MonthName "september") = Ok months ->
  exists mr h',
    F64.get_monthly_interest_rate_array rs rr cm h = (Ok mr, h') /\
    360 <= len mr.
Proof.
  intros Hs Hr Hsne Hrne Hm.
  unfold F64.get_monthly_interest_rate_array.
  rewrite (bind_ok _ _ _ _ _ (extrapolate_array_run h rs salaries _ Hs Hsne)).
  set (e1 := extrapolated salaries (RELIEF_PERDIOD + 1)).
  set (h1 := <[rs := e1]> h).
  assert (He1 : e1 <> [] /\ 31 <= len e1).
  { split; [apply extrapolated_nonempty | apply (extrapolated_length salaries 31)];
      exact Hsne. }
  assert (exists rpis1, h1 !! rr = Some rpis1 /\ rpis1 <> [])
    as (rpis1 & Hr1 & Hr1ne).
  { unfold h1. destruct (decide (rs = rr)) as [-> | Hneq].
    - exists e1. rewrite lookup_insert_eq. tauto.
    - exists rpis. rewrite lookup_insert_ne by exact Hneq. tauto. }
  rewrite (bind_ok _ _ _ _ _ (extrapolate_array_run h1 rr rpis1 _ Hr1 Hr1ne)).
  set (e2 := extrapolated rpis1 (RELIEF_PERDIOD + 1)).
  set (h2 := <[rr := e2]> h1).
  assert (He2 : 31 <= len e2).
  { apply (extrapolated_length rpis1 31). exact Hr1ne. }
  assert (exists salaries', h2 !! rs = Some salaries' /\ 31 <= len salaries')
    as (salaries' & Hs2 & Hs2len).
  { unfold h2, h1. destruct (decide (rr = rs)) as [-> | Hneq].
    - exists e2. rewrite lookup_insert_eq. tauto.
    - exists e1. rewrite lookup_insert_ne by exact Hneq.
      rewrite lookup_insert_eq. tauto. }
  assert (Hr2 : h2 !! rr = Some e2) by (unfold h2; apply lookup_insert_eq).
  rewrite (bind_ok _ _ _ _ _ (load_ok h2 rs _ Hs2)).
  rewrite (bind_ok _ _ _ _ _ (load_ok h2 rr _ Hr2)).
  destruct (f64_annual_rates_loop salaries' e2 Hs2len He2) as (rates & Hrun & Hlen).
  rewrite (bind_ok _ _ _ _ _ (lift_ok _ h2 _ Hrun)).
  rewrite (bind_ok _ _ _ _ _ (lift_ok _ h2 _ Hm)).
  destruct rates as [ | first rest] eqn:El; [discriminate | ].
  rewrite (bind_ok _ _ _ _ _ (lift_ok _ h2 _ (py_index_head first rest))).
  unfold ret. eexists. exists h2. split; [reflexivity | ].
  apply f64_len_monthly. unfold len. rewrite Hlen. lia.
Qed.

Lemma f64_monthly_series_exist (h : heap float) rs rr salaries rpis cm :
  h !! rs = Some salaries -> h !! rr = Some rpis ->
  salaries <> [] -> rpis <> [] -> valid_month cm ->
  exists ms mr h', F64.monthly_series h rs rr cm ms mr h'.
Proof.
  intros Hs Hr Hsne Hrne Hcm.
  assert (Hapril : valid_month april) by (simpl; tauto).
  assert (Hsept : valid_month (MonthName "september")) by (simpl; tauto).
  destruct (calculate_months_difference_range cm _ Hcm Hapril) as (ma & Hma & Ra).
  destruct (calculate_months_difference_range cm _ Hcm Hsept) as (mp & Hmp & Rp).
  destruct (f64_get_monthly_salary_array_run h rs salaries cm april ma Hs Hsne Hma)
    as (ms & salaries' & Hrun1 & Hne' & Hlen1).
  set (h1 := <[rs := salaries']> h) in *.
  assert (Hs1 : h1 !! rs = Some salaries') by (unfold h1; apply lookup_insert_eq).
  assert (exists rpis1, h1 !! rr = Some rpis1 /\ rpis1 <> [])
    as (rpis1 & Hr1 & Hr1ne).
  { unfold h1. destruct (decide (rs = rr)) as [-> | Hneq].
    - exists salaries'. rewrite lookup_insert_eq. tauto.
    - exists rpis. rewrite lookup_insert_ne by exact Hneq. tauto. }
  destruct (f64_get_monthly_interest_rate_array_run h1 rs rr _ _ cm mp
              Hs1 Hr1 Hne' Hr1ne Hmp) as (mr & h2 & Hrun2 & Hlen2).
  exists ms, mr, h2, h1. auto.
Qed.

Lemma f64_simulate_loop_app salaries rates d (xs ys : list Z) (st : F64.sim_state) :
  F64.simulate_loop salaries rates d (xs ++ ys) st
  = let? st' := F64.simulate_loop salaries rates d xs st in
    F64.simulate_loop salaries rates d ys st'.
Proof.
  revert st. induction xs as [ | x xs IH]; intros st; simpl; [reflexivity | ].
  destruct (F64.simulate_month salaries rates d st x); simpl;
    [apply IH | reflexivity].
Qed.

Lemma f64_balance_before_snoc (loan : float) (balances : list float) (x : float)
    (i : nat) :
  (i <= length balances)%nat ->
  F64.balance_before loan (balances ++ [x]) i = F64.balance_before loan balances i.
Proof.
  destruct i as [ | j]; [reflexivity | ]. intros Hj. simpl.
  rewrite lookup_app_l by lia. reflexivity.
Qed.

Lemma f64_month_row_snoc salaries rates d loan reps ints bals r i b (j : nat) :
  (j < length bals)%nat ->
  F64.month_row salaries rates d loan reps ints bals j ->
  F64.month_row salaries rates d loan (reps ++ [r]) (ints ++ [i]) (bals ++ [b]) j.
Proof.
  intros Hj (salary & rate & Hs & Hr & Hi & Hp & Hb).
  exists salary, rate. split; [exact Hs | ]. split; [exact Hr | ].
  cbv zeta. rewrite f64_balance_before_snoc by lia.
  auto using lookup_snoc_old.
Qed.

Lemma f64_simulate_loop_spec salaries rates d loan (n : nat) :
  (n <= length salaries)%nat -> (n <= length rates)%nat ->
  exists st,
    F64.simulate_loop salaries rates d (py_range (Z.of_nat n))
                      (F64.mk_sim_state loan [] [] []) = Ok st /\
    F64.loan_outstanding st = F64.balance_before loan (F64.monthly_balance st) n /\
    length (F64.monthly_repayments st) = n /\
    length (F64.monthly_interest st) = n /\
    length (F64.monthly_balance st) = n /\
    forall i : nat, (i < n)%nat ->
      F64.month_row salaries rates d loan (F64.monthly_repayments st)
                    (F64.monthly_interest st) (F64.monthly_balance st) i.
Proof.
  induction n as [ | n IH]; intros Hs Hr.
  - eexists. split; [reflexivity | ]. split; [reflexivity | ].
    repeat split. intros i Hi. lia.
  - destruct IH as (st & Hrun & Hbal & Hlr & Hli & Hlb & Hrows); [lia | lia | ].
    destruct (lookup_lt_is_Some_2 salaries n ltac:(lia)) as (salary & Hsal).
    destruct (lookup_lt_is_Some_2 rates n ltac:(lia)) as (rate & Hrate).
    rewrite py_range_succ, f64_simulate_loop_app, Hrun. simpl.
    unfold F64.simulate_month.
    rewrite (py_index_nonneg _ _ _ Hrate), (py_index_nonneg _ _ _ Hsal). simpl.
    eexists. split; [reflexivity | ]. simpl.
    split.
    { rewrite Hbal. simpl. rewrite lookup_snoc_new by exact Hlb. reflexivity. }
    split; [rewrite length_app; simpl; lia | ].
    split; [rewrite length_app; simpl; lia | ].
    split; [rewrite length_app; simpl; lia | ].
    intros i Hi. destruct (decide (i = n)) as [-> | Hne].
    + exists salary, rate. split; [exact Hsal | ]. split; [exact Hrate | ].
      cbv zeta. rewrite f64_balance_before_snoc by lia. rewrite <- Hbal.
      auto using lookup_snoc_new.
    + apply f64_month_row_snoc; [lia | ]. apply Hrows. lia.
Qed.

Lemma f64_simulate_repayment_run (h h' : heap float) rs rr cm ms mr loan (m : Z) d :
  F64.monthly_series h rs rr cm ms mr h' -> m <= 360 ->
  exists reps ints bals,
    F64.simulate_repayment loan rr rs cm m d h = (Ok (reps, ints, bals), h') /\
    length bals = Z.to_nat m /\
    forall i : nat, (i < Z.to_nat m)%nat ->
      F64.month_row ms mr d loan reps ints bals i.
Proof.
  intros (h1 & Hrun1 & Hrun2 & Hlen1 & Hlen2) Hm.
  destruct (f64_simulate_loop_spec ms mr d loan (Z.to_nat m))
    as (st & Hloop & _ & _ & _ & Hlb & Hrows).
  { unfold len in Hlen1. lia. }
  { unfold len in Hlen2. lia. }
  exists (F64.monthly_repayments st), (F64.monthly_interest st),
         (F64.monthly_balance st).
  split; [ | split; [exact Hlb | exact Hrows]].
  unfold F64.simulate_repayment.
  rewrite (bind_ok _ _ _ _ _ Hrun1), (bind_ok _ _ _ _ _ Hrun2).
  rewrite py_range_to_nat.
  rewrite (bind_ok _ _ _ _ _ (lift_ok _ h' _ Hloop)). reflexivity.
Qed.

Local Open Scope float_scope.

(** X29. In binary64 arithmetic the monthly installment is a number that is
    not negative for every float given as monthly salary, nan and the two
    infinities included: [max(0, _)] returns its first argument 0 when the
    comparison with a nan is false. *)
Theorem calculate_monthly_installment_float_nonneg (monthly_salary : float) :
  is_nan (F64.calculate_monthly_installment monthly_salary) = false /\
  (0 <=? F64.calculate_monthly_installment monthly_salary) = true.
Proof.
  pose proof (sf_signed_nonneg _ (f64_installment_signed monthly_salary)) as Hnn.
  split.
  - rewrite is_nan_spec. apply sf_nonneg_not_nan. exact Hnn.
  - apply leb_zero_spec. exact Hnn.
Qed.

(** C2, as stated, fails on the code.  Take a loan of [2 ^ 1023], one annual
    salary of 20000 (below the repayment threshold, so every installment is
    0), annual RPIs of 1200 and 0, a run of three months from August, and
    no discretionary repayment.  The first month's rate is 100 per cent, so
    the interest [loan * 100 / 100] overflows to infinity and so does the
    balance; from September the rate is 0, the interest [inf * 0 / 100] is
    nan, and the balance is nan from there on: a nan is not [>= 0]. *)
Lemma simulate_repayment_balance_overflow_counterexample :
  exists reps ints h',
    F64.simulate_repayment 0x1p+1023 2%positive 1%positive (MonthNum 8) 3 ∅
                           overflow_store_f64
    = (Ok (reps, ints, [infinity; nan; nan]), h') /\
    (0 <=? 0x1p+1023) = true /\
    is_finite 0x1p+1023 = true /\
    (0 <=? nan) = false.
Proof.
  do 3 eexists. split; [vm_compute; reflexivity | ].
  repeat split; reflexivity.
Qed.

(** C2, amended.  On non-empty annual lists, a valid month, a horizon of at
    most 360 months and a dictionary whose amounts are not negative, the
    call returns, and every balance it records is not negative provided
    that month's [balance + interest] is a finite float (it has not
    overflowed to an infinity and is no nan); that balance then equals
    [max (balance + interest - installment) 0], as floats compare.  No sign
    condition on the loan, the salaries or the rates is needed. *)
Theorem simulate_repayment_balance_nonneg (h : heap float) (rs rr : loc)
    (salaries rpis : list float) (cm : month_ref) (loan : float) (m : Z)
    (d : gmap Z float) :
  h !! rs = Some salaries -> h !! rr = Some rpis ->
  salaries <> [] -> rpis <> [] -> valid_month cm -> (m <= 360)%Z ->
  (forall k x, d !! k = Some x -> (0 <=? x) = true) ->
  exists ms mr h' reps ints bals,
    F64.monthly_series h rs rr cm ms mr h' /\
    F64.simulate_repayment loan rr rs cm m d h = (Ok (reps, ints, bals), h') /\
    len bals = Z.max 0 m /\
    (forall (i : nat) interest b,
       ints !! i = Some interest -> bals !! i = Some b ->
       is_finite (F64.balance_before loan bals i + interest) = true ->
       (0 <=? b) = true) /\
    forall i : nat, (Z.of_nat i < m)%Z ->
      exists salary rate interest b,
        ms !! i = Some salary /\ mr !! i = Some rate /\
        ints !! i = Some interest /\ bals !! i = Some b /\
        let balance := F64.balance_before loan bals i in
        let installment :=
          F64.with_discretionary d (Z.of_nat i)
                                 (F64.calculate_monthly_installment salary) in
        interest = F64.calculate_monthly_interest balance rate /\
        b = balance + interest - F64.py_min installment (balance + interest) /\
        (is_finite (balance + interest) = true ->
         (b =? F64.py_max (balance + interest - installment) 0) = true).
Proof.
  intros Hs Hr Hsne Hrne Hcm Hm Hd.
  destruct (f64_monthly_series_exist h rs rr salaries rpis cm Hs Hr Hsne Hrne Hcm)
    as (ms & mr & h' & Hser).
  destruct (f64_simulate_repayment_run h h' rs rr cm ms mr loan m d Hser Hm)
    as (reps & ints & bals & Hrun & Hlb & Hrows).
  exists ms, mr, h', reps, ints, bals.
  split; [exact Hser | ]. split; [exact Hrun | ].
  split; [unfold len; rewrite Hlb; lia | ].
  assert (Hnan : forall (i : nat) salary,
            is_nan (F64.with_discretionary d (Z.of_nat i)
                      (F64.calculate_monthly_installment salary)) = false).
  { intros i salary. apply f64_with_discretionary_not_nan. intros x. apply Hd. }
  split.
  - intros i interest b Hint Hb Hfin.
    pose proof (lookup_lt_Some _ _ _ Hb) as Hi.
    destruct (Hrows i ltac:(lia)) as (salary & rate & _ & _ & Hint' & _ & Hb').
    rewrite Hint in Hint'. injection Hint' as ->.
    rewrite Hb in Hb'. injection Hb' as ->.
    apply f64_capped_balance; [exact Hfin | apply Hnan].
  - intros i Hi.
    destruct (Hrows i ltac:(lia)) as (salary & rate & Hsal & Hrate & Hint & _ & Hb).
    exists salary, rate. do 2 eexists.
    split; [exact Hsal | ]. split; [exact Hrate | ].
    split; [exact Hint | ]. split; [exact Hb | ].
    cbv zeta. split; [reflexivity | ]. split; [reflexivity | ].
    intros Hfin. apply f64_capped_balance; [exact Hfin | apply Hnan].
Qed.

(** A run of three months from January on a loan of 40000 with 100 paid in
    on top in the first month: every recorded balance is a finite float
    that is not negative. *)
Lemma simulate_repayment_balance_nonneg_witness :
  exists reps ints bals h',
    F64.simulate_repayment 40000 2%positive 1%positive (MonthNum 1) 3
                           {[ 0%Z := 100 ]} example_store_f64
    = (Ok (reps, ints, bals), h') /\
    len bals = 3%Z /\
    forall (i : nat) b, bals !! i = Some b -> (0 <=? b) = true.
Proof.
  destruct (simulate_repayment_balance_nonneg example_store_f64 1%positive
              2%positive [30000; 31000] [2] (MonthNum 1) 40000 3 {[ 0%Z := 100 ]})
    as (ms & mr & h' & reps & ints & bals & _ & Hrun & Hlen & Hnn & _).
  - reflexivity.
  - reflexivity.
  - discriminate.
  - discriminate.
  - simpl. lia.
  - lia.
  - intros k x Hx. apply lookup_singleton_Some in Hx as [_ <-]. reflexivity.
  - exists reps, ints, bals, h'. split; [exact Hrun | ]. split; [exact Hlen | ].
    vm_compute in Hrun. injection Hrun as <- <- <- _.
    intros i b Hb.
    destruct i as [ | [ | [ | i]]];
      [ apply (Hnn 0%nat _ b eq_refl Hb)
      | apply (Hnn 1%nat _ b eq_refl Hb)
      | apply (Hnn 2%nat _ b eq_refl Hb)
      | discriminate ];
      reflexivity.
Defined.

Local Close Scope float_scope.

(** * Further properties of helpers.py *)

Lemma position_from_spec (s : string) (names : list string) (i : Z) :
  match position_from s names i with
  | Some _ => In s names
  | None => ~ In s names
  end.
Proof.
  revert i. induction names as [ | n names IH]; intros i; simpl.
  - tauto.
  - destruct (String.eqb_spec s n) as [-> | Hne].
    + left. reflexivity.
    + specialize (IH (i + 1)).
      destruct (position_from s names (i + 1)); [tauto | ].
      intros [Heq | Hin]; [congruence | tauto].
Qed.

Lemma month_number_cases (m : month_ref) :
  (exists n, month_number m = Ok n /\ ~ unknown_month_name m) \/
  (month_number m = Raise ValueError /\ unknown_month_name m).
Proof.
  destruct m as [s | n]; simpl.
  - unfold strptime_month.
    pose proof (position_from_spec (lower s) month_names 1) as Hp.
    destruct (position_from (lower s) month_names 1) as [k | ].
    + left. exists k. split; [reflexivity | tauto].
    + right. split; [reflexivity | exact Hp].
  - left. exists n. split; [reflexivity | tauto].
Qed.

Lemma months_remaining_range (a b : Z) :
  1 <= (if (b - a) mod 12 =? 0 then 12 else (b - a) mod 12) <= 12.
Proof.
  pose proof (Z.mod_pos_bound (b - a) 12 ltac:(lia)) as Hb.
  destruct ((b - a) mod 12 =? 0) eqn:E; [lia | ].
  apply Z.eqb_neq in E. lia.
Qed.

(** X1. [calculate_months_difference] raises [ValueError] as soon as one of
    its arguments is a string that is no month name, and otherwise returns a
    number in 1..12: integers are never rejected, whatever their value. *)
Theorem calculate_months_difference_errors (current target : month_ref) :
  (unknown_month_name current \/ unknown_month_name target ->
   calculate_months_difference current target = Raise ValueError) /\
  (~ unknown_month_name current -> ~ unknown_month_name target ->
   exists d, calculate_months_difference current target = Ok d /\ 1 <= d <= 12).
Proof.
  destruct (month_number_cases current) as [(mc & Ec & Hc) | (Ec & Hc)];
    destruct (month_number_cases target) as [(mt & Et & Ht) | (Et & Ht)];
    split; try tauto.
  - intros _ _. eexists.
    split; [apply (calculate_months_difference_numbers _ _ _ _ Ec Et) | ].
    apply months_remaining_range.
  - intros _. unfold calculate_months_difference. rewrite Ec, Et. reflexivity.
  - intros _. unfold calculate_months_difference. rewrite Ec. reflexivity.
  - intros _. unfold calculate_months_difference. rewrite Ec. reflexivity.
Qed.

Lemma calculate_months_difference_errors_witness :
  calculate_months_difference (MonthNum 3) (MonthName "Sept") = Raise ValueError /\
  (exists d, calculate_months_difference (MonthNum 13) (MonthName "MAY") = Ok d /\
             1 <= d <= 12).
Proof.
  split.
  - apply (calculate_months_difference_errors (MonthNum 3) (MonthName "Sept")).
    right. simpl. intros H. repeat (destruct H as [H | H]; [discriminate | ]).
    contradiction.
  - apply (calculate_months_difference_errors (MonthNum 13) (MonthName "MAY")).
    + simpl. tauto.
    + simpl. tauto.
Defined.

(** X2. On integers [calculate_months_difference] depends on its arguments
    only modulo 12: the result lies in 1..12, is congruent to
    [target - current], and is unchanged when either argument moves by a
    multiple of 12. *)
Theorem calculate_months_difference_mod12 (a b j k : Z) :
  exists d,
    calculate_months_difference (MonthNum a) (MonthNum b) = Ok d /\
    1 <= d <= 12 /\ (d - (b - a)) mod 12 = 0 /\
    calculate_months_difference (MonthNum (a + 12 * j)) (MonthNum (b + 12 * k))
      = Ok d.
Proof.
  exists (if (b - a) mod 12 =? 0 then 12 else (b - a) mod 12).
  split; [apply calculate_months_difference_numbers; reflexivity | ].
  split; [apply months_remaining_range | ].
  split.
  - destruct ((b - a) mod 12 =? 0) eqn:E.
    + apply Z.eqb_eq in E.
      rewrite <- Zminus_mod_idemp_r, E. reflexivity.
    + rewrite Zminus_mod_idemp_l, Z.sub_diag. reflexivity.
  - rewrite (calculate_months_difference_numbers _ _ (a + 12 * j) (b + 12 * k))
      by reflexivity.
    replace (b + 12 * k - (a + 12 * j)) with (b - a + (k - j) * 12) by lia.
    rewrite Z_mod_plus_full. reflexivity.
Qed.

(** X3. Going from one month to another and back takes 12 months in all,
    and 24 when the two are the same month. *)
Theorem calculate_months_difference_round_trip (c t : month_ref) (mc mt : Z) :
  month_number c = Ok mc -> month_number t = Ok mt ->
  exists d1 d2,
    calculate_months_difference c t = Ok d1 /\
    calculate_months_difference t c = Ok d2 /\
    d1 + d2 = (if (mt - mc) mod 12 =? 0 then 24 else 12).
Proof.
  intros Ec Et. do 2 eexists.
  split; [apply (calculate_months_difference_numbers _ _ _ _ Ec Et) | ].
  split; [apply (calculate_months_difference_numbers _ _ _ _ Et Ec) | ].
  pose proof (Z.mod_pos_bound (mt - mc) 12 ltac:(lia)) as H1.
  pose proof (Z.mod_pos_bound (mc - mt) 12 ltac:(lia)) as H2.
  pose proof (Z.div_mod (mt - mc) 12 ltac:(lia)) as D1.
  pose proof (Z.div_mod (mc - mt) 12 ltac:(lia)) as D2.
  set (r1 := (mt - mc) mod 12) in *. set (r2 := (mc - mt) mod 12) in *.
  set (q1 := (mt - mc) / 12) in *. set (q2 := (mc - mt) / 12) in *.
  clearbody r1 r2 q1 q2.
  destruct (Z.eqb_spec r1 0); destruct (Z.eqb_spec r2 0); lia.
Qed.

Lemma calculate_months_difference_round_trip_witness :
  exists d1 d2,
    calculate_months_difference (MonthName "March") (MonthNum 9) = Ok d1 /\
    calculate_months_difference (MonthNum 9) (MonthName "March") = Ok d2 /\
    d1 + d2 = (if (9 - 3) mod 12 =? 0 then 24 else 12).
Proof.
  apply (calculate_months_difference_round_trip (MonthName "March") (MonthNum 9) 3 9);
    reflexivity.
Defined.

Lemma extrapolated_idempotent {A} (values : list A) (n1 n2 : Z) :
  n2 <= n1 -> extrapolated (extrapolated values n1) n2 = extrapolated values n1.
Proof.
  intros Hn. destruct values as [ | v values].
  - reflexivity.
  - pose proof (extrapolated_length (v :: values) n1 ltac:(discriminate)) as Hlen.
    pose proof (extrapolated_nonempty (v :: values) n1 ltac:(discriminate)) as Hne.
    set (e := extrapolated (v :: values) n1) in *.
    unfold extrapolated. destruct (last e); [ | reflexivity].
    destruct (Z.ltb_spec (len e) n2); [lia | reflexivity].
Qed.

Lemma bind_raise {A R S} (c : M A R) (k : R -> M A S) h e h' :
  c h = (Raise e, h') -> bind c k h = (Raise e, h').
Proof. intros Hc. unfold bind. rewrite Hc. reflexivity. Qed.

Lemma extrapolate_array_empty {A} (h : heap A) (arr : loc) (n : Z) :
  h !! arr = Some [] ->
  extrapolate_array arr n h
  = if 0 <? n then (Raise IndexError, h) else (Ok arr, h).
Proof.
  intros Hh. unfold extrapolate_array, bind, load, lift, ret. rewrite Hh.
  change (len []) with 0. destruct (0 <? n); reflexivity.
Qed.

Lemma extrapolate_array_unallocated {A} (h : heap A) (arr : loc) (n : Z) :
  h !! arr = None -> extrapolate_array arr n h = (Raise Unallocated, h).
Proof.
  intros Hh. unfold extrapolate_array, bind, load. rewrite Hh. reflexivity.
Qed.

(** X4. Extrapolating twice is extrapolating once: after a call with
    target [n1], a second call on the same list with a target [n2 <= n1]
    changes nothing, although the first call may have overshot its target
    by one element. *)
Theorem extrapolate_array_idempotent {A} (h : heap A) (arr : loc) (n1 n2 : Z) :
  n2 <= n1 ->
  (let* arr' := extrapolate_array arr n1 in extrapolate_array arr' n2) h
  = extrapolate_array arr n1 h.
Proof.
  intros Hn. destruct (h !! arr) as [values | ] eqn:Hh.
  - destruct values as [ | v values].
    + pose proof (extrapolate_array_empty h arr n1 Hh) as E1.
      destruct (Z.ltb_spec 0 n1).
      * rewrite (bind_raise _ _ _ _ _ E1). symmetry. exact E1.
      * rewrite (bind_ok _ _ _ _ _ E1), E1.
        rewrite (extrapolate_array_empty h arr n2 Hh).
        destruct (Z.ltb_spec 0 n2); [lia | reflexivity].
    + assert (Hne : v :: values <> []) by discriminate.
      rewrite (bind_ok _ _ _ _ _ (extrapolate_array_run h arr _ n1 Hh Hne)).
      rewrite (extrapolate_array_run h arr _ n1 Hh Hne).
      rewrite (extrapolate_array_run _ arr (extrapolated (v :: values) n1) n2
                 (lookup_insert_eq _ _ _)
                 (extrapolated_nonempty _ _ Hne)).
      rewrite extrapolated_idempotent by exact Hn.
      rewrite insert_insert_eq. reflexivity.
  - pose proof (extrapolate_array_unallocated h arr n1 Hh) as E1.
    rewrite (bind_raise _ _ _ _ _ E1). symmetry. exact E1.
Qed.

Lemma extrapolate_array_idempotent_witness :
  let h : heap Q := {[ 1%positive := [5%Q; 7%Q] ]} in
  (let* arr' := extrapolate_array 1%positive 4 in extrapolate_array arr' 4) h
  = extrapolate_array 1%positive 4 h.
Proof.
  intros h. apply (extrapolate_array_idempotent h 1%positive 4 4). lia.
Defined.

Lemma last_app_replicate {A} (values : list A) (x : A) (k : nat) :
  last values = Some x -> last (values ++ replicate k x) = Some x.
Proof.
  intros Hx. destruct k as [ | k].
  - simpl. rewrite app_nil_r. exact Hx.
  - rewrite replicate_S_end, app_assoc. apply last_snoc.
Qed.

(** X5. On a non-empty list [extrapolate_array] only appends copies of the
    last element: the old elements stay where they were, every new element
    and the new last element equal the old last element, and no other list
    of the store is touched. *)
Theorem extrapolate_array_extends {A} (h : heap A) (arr : loc) (values : list A)
    (n : Z) :
  h !! arr = Some values -> values <> [] ->
  exists values' h',
    extrapolate_array arr n h = (Ok arr, h') /\
    h' !! arr = Some values' /\
    (forall r, r <> arr -> h' !! r = h !! r) /\
    take (length values) values' = values /\
    last values' = last values /\
    forall (i : nat) x, (length values <= i)%nat ->
      values' !! i = Some x -> last values = Some x.
Proof.
  intros Hh Hne.
  exists (extrapolated values n), (<[arr := extrapolated values n]> h).
  split; [apply extrapolate_array_run; assumption | ].
  split; [apply lookup_insert_eq | ].
  split; [intros r Hr; apply lookup_insert_ne; congruence | ].
  destruct (last_nonempty values Hne) as (x & Hx).
  unfold extrapolated. rewrite Hx.
  destruct (len values <? n).
  - split; [apply take_app_length | ].
    split; [apply last_app_replicate; exact Hx | ].
    intros i y Hi Hy. rewrite lookup_app_r in Hy by exact Hi.
    apply lookup_replicate in Hy as [-> _]. reflexivity.
  - split; [apply firstn_all | ].
    split; [exact Hx | ].
    intros i y Hi Hy. apply lookup_lt_Some in Hy. lia.
Qed.

Lemma extrapolate_array_extends_witness :
  let h : heap Q := {[ 1%positive := [5%Q; 7%Q]; 2%positive := [9%Q] ]} in
  exists values' h',
    extrapolate_array 1%positive 4 h = (Ok 1%positive, h') /\
    h' !! 1%positive = Some values' /\
    (forall r, r <> 1%positive -> h' !! r = h !! r) /\
    take (length [5%Q; 7%Q]) values' = [5%Q; 7%Q] /\
    last values' = last [5%Q; 7%Q] /\
    forall (i : nat) x, (length [5%Q; 7%Q] <= i)%nat ->
      values' !! i = Some x -> last [5%Q; 7%Q] = Some x.
Proof.
  intros h. apply (extrapolate_array_extends h 1%positive [5%Q; 7%Q] 4).
  - reflexivity.
  - discriminate.
Defined.

(** * Further properties of calculations.py *)

Local Open Scope Q_scope.








(** X8. Between the two thresholds the uncapped rate is the RPI plus 3
    points times the fraction of the band the salary has covered. *)
Theorem calculate_annual_interest_rate_band (base_salary rpi : Q) :
  27295 <= base_salary -> base_salary <= 49130 ->
  calculate_annual_interest_rate base_salary rpi None
    == rpi + 3 * ((base_salary - 27295) / 21835).
Proof.
  intros Hlo Hhi.
  assert (Hdiv : forall x : Q, x / 21835 == x * (1 # 21835)) by (intros x; field).
  rewrite Hdiv, calculate_annual_interest_rate_nocap.
  unfold INTEREST_PREMIUM.
  destruct (Qltb LOWER_INCOME_THRESHOLD base_salary) eqn:E.
  - unfold premium_share. pose proof (salary_band base_salary) as Hb.
    rewrite Q.min_r by lra. lra.
  - apply Qltb_false in E. unfold LOWER_INCOME_THRESHOLD in E. lra.
Qed.

Lemma calculate_annual_interest_rate_band_witness :
  calculate_annual_interest_rate 30000 2 None
    == 2 + 3 * ((30000 - 27295) / 21835).
Proof.
  apply (calculate_annual_interest_rate_band 30000 2).
  - unfold Qle. simpl. lia.
  - unfold Qle. simpl. lia.
Defined.

Lemma calculate_monthly_installment_mono (s1 s2 : Q) :
  s1 <= s2 ->
  calculate_monthly_installment s1 <= calculate_monthly_installment s2.
Proof.
  intros Hs.
  unfold calculate_monthly_installment, LOWER_INCOME_THRESHOLD, STUDENT_TAX.
  destruct (Q.max_spec 0 (s1 - 27295 / 12)) as [[H1 ->] | [H1 ->]];
    destruct (Q.max_spec 0 (s2 - 27295 / 12)) as [[H2 ->] | [H2 ->]];
    const_div; lra.
Qed.

(** X9. The monthly installment is never negative and is non-decreasing in
    the monthly salary. *)
Theorem calculate_monthly_installment_shape (monthly_salary : Q) :
  0 <= calculate_monthly_installment monthly_salary /\
  forall s2, monthly_salary <= s2 ->
    calculate_monthly_installment monthly_salary
      <= calculate_monthly_installment s2.
Proof.
  split; [apply calculate_monthly_installment_nonneg | ].
  intros s2. apply calculate_monthly_installment_mono.
Qed.

Lemma calculate_monthly_installment_shape_witness :
  0 <= calculate_monthly_installment 2500 /\
  calculate_monthly_installment 2000 <= calculate_monthly_installment 2500.
Proof.
  destruct (calculate_monthly_installment_shape 2000) as (_ & Hmono).
  destruct (calculate_monthly_installment_shape 2500) as (Hnn & _).
  split; [exact Hnn | apply Hmono; unfold Qle; simpl; lia].
Defined.

Local Close Scope Q_scope.

(** * Further properties of annual_monthly_transformers.py *)

Lemma calculate_months_difference_unknown (c t : month_ref) :
  unknown_month_name c \/ unknown_month_name t ->
  calculate_months_difference c t = Raise ValueError.
Proof.
  intros Hu. unfold calculate_months_difference.
  destruct (month_number_cases c) as [(mc & -> & Hc) | (-> & Hc)];
    [ | reflexivity].
  destruct (month_number_cases t) as [(mt & -> & Ht) | (-> & Ht)];
    [tauto | reflexivity].
Qed.

Lemma lookup_year_blocks (rest : list Q) (j : nat) :
  flat_map (fun a => py_repeat 12 (a / 12)%Q) rest !! j
  = (fun a => (a / 12)%Q) <$> rest !! (j / 12)%nat.
Proof.
  revert j. induction rest as [ | a rest IH]; intros j.
  - reflexivity.
  - cbn [flat_map]. unfold py_repeat at 1. change (Z.to_nat 12) with 12%nat.
    destruct (Nat.lt_ge_cases j 12) as [Hlt | Hge].
    + rewrite lookup_app_l by (rewrite length_replicate; exact Hlt).
      rewrite (Nat.div_small j 12 Hlt).
      transitivity (Some (a / 12)%Q);
        [apply lookup_replicate_2; exact Hlt | reflexivity].
    + rewrite lookup_app_r by (rewrite length_replicate; exact Hge).
      rewrite length_replicate, IH.
      replace (j / 12)%nat with (S ((j - 12) / 12)).
      * reflexivity.
      * replace j with ((j - 12) + 1 * 12)%nat at 2 by lia.
        rewrite Nat.div_add by lia. lia.
Qed.

Lemma lookup_monthly_layout (months : Z) (annual : list Q) (i : nat) :
  annual <> [] ->
  monthly_layout months annual !! i
  = (fun a => (a / 12)%Q) <$> annual !! year_of_month months i.
Proof.
  destruct annual as [ | first rest]; [contradiction | intros _].
  unfold monthly_layout, year_of_month, py_repeat.
  destruct (Nat.ltb_spec i (Z.to_nat months)) as [Hlt | Hge].
  - rewrite lookup_app_l by (rewrite length_replicate; exact Hlt).
    transitivity (Some (first / 12)%Q);
      [apply lookup_replicate_2; exact Hlt | reflexivity].
  - rewrite lookup_app_r by (rewrite length_replicate; exact Hge).
    rewrite length_replicate. apply lookup_year_blocks.
Qed.

Lemma lookup_extended {A} (values : list A) (x : A) (k y : nat) :
  last values = Some x -> (y < length values + k)%nat ->
  (values ++ replicate k x) !! y = annual_value values y.
Proof.
  intros Hx Hy. unfold annual_value.
  destruct (Nat.lt_ge_cases y (length values)) as [Hlt | Hge].
  - rewrite lookup_app_l by exact Hlt.
    destruct (lookup_lt_is_Some_2 values y Hlt) as (a & ->). reflexivity.
  - rewrite lookup_app_r by exact Hge.
    rewrite (lookup_ge_None_2 values y Hge), Hx.
    apply lookup_replicate_2. lia.
Qed.


Lemma lookup_extrapolated {A} (values : list A) (n : Z) (y : nat) :
  values <> [] -> (Z.of_nat y < n)%Z ->
  extrapolated values n !! y = annual_value values y.
Proof.
  intros Hne Hy. destruct (last_nonempty values Hne) as (x & Hx).
  unfold extrapolated, py_repeat, len. rewrite Hx.
  destruct (Z.ltb_spec (Z.of_nat (length values)) n) as [Hlt | Hge].
  - apply lookup_extended; [exact Hx | lia].
  - unfold annual_value.
    destruct (lookup_lt_is_Some_2 values y ltac:(lia)) as (a & ->). reflexivity.
Qed.


(** ** [get_monthly_salary_array] *)

Lemma get_monthly_salary_array_empty (h : heap Q) rs cm rev :
  h !! rs = Some [] ->
  get_monthly_salary_array rs cm rev h = (Raise IndexError, h).
Proof.
  intros Hh. unfold get_monthly_salary_array, bind, load, lift. rewrite Hh.
  reflexivity.
Qed.

Lemma get_monthly_salary_array_unknown (h : heap Q) rs salaries cm rev :
  h !! rs = Some salaries -> salaries <> [] ->
  unknown_month_name cm \/ unknown_month_name rev ->
  get_monthly_salary_array rs cm rev h
  = (Raise ValueError, <[rs := padded_salaries salaries]> h).
Proof.
  intros Hh Hne Hu. destruct (last_nonempty salaries Hne) as (x & Hx).
  unfold padded_salaries. rewrite Hx.
  unfold get_monthly_salary_array, bind, load, store, lift, ret.
  rewrite Hh, (calculate_months_difference_unknown cm rev Hu).
  destruct (len salaries <? RELIEF_PERDIOD + 1).
  - rewrite (py_index_last _ _ Hx), Hh. reflexivity.
  - rewrite insert_id by exact Hh. reflexivity.
Qed.

(** X10. [get_monthly_salary_array] raises [IndexError] on an empty salary
    list, before it looks at the month references and without touching the
    store; on a non-empty list and a string that is no month name it raises
    [ValueError] only after it has padded the caller's list in place. *)
Theorem get_monthly_salary_array_errors (h : heap Q) (rs : loc)
    (salaries : list Q) (cm rev : month_ref) :
  h !! rs = Some salaries ->
  (salaries = [] ->
   get_monthly_salary_array rs cm rev h = (Raise IndexError, h)) /\
  (salaries <> [] -> unknown_month_name cm \/ unknown_month_name rev ->
   get_monthly_salary_array rs cm rev h
   = (Raise ValueError, <[rs := padded_salaries salaries]> h) /\
   len (padded_salaries salaries) = Z.max 31 (len salaries)).
Proof.
  intros Hh. split.
  - intros ->. apply get_monthly_salary_array_empty. exact Hh.
  - intros Hne Hu.
    split; [apply get_monthly_salary_array_unknown; assumption | ].
    apply len_padded_salaries. exact Hne.
Qed.

Lemma get_monthly_salary_array_errors_witness :
  let h : heap Q := {[ 1%positive := []; 2%positive := [30000%Q] ]} in
  get_monthly_salary_array 1%positive (MonthName "no month") april h
    = (Raise IndexError, h) /\
  get_monthly_salary_array 2%positive (MonthName "Sept") april h
    = (Raise ValueError, <[2%positive := padded_salaries [30000%Q]]> h) /\
  len (padded_salaries [30000%Q]) = Z.max 31 (len [30000%Q]).
Proof.
  intros h. split.
  - apply (get_monthly_salary_array_errors h 1%positive [] (MonthName "no month")
             april eq_refl). reflexivity.
  - apply (get_monthly_salary_array_errors h 2%positive [30000%Q]
             (MonthName "Sept") april eq_refl).
    + discriminate.
    + left. simpl. intros H. repeat (destruct H as [H | H]; [discriminate | ]).
      contradiction.
Defined.



Lemma padded_salaries_idempotent (salaries : list Q) :
  padded_salaries (padded_salaries salaries) = padded_salaries salaries.
Proof.
  destruct salaries as [ | v salaries]; [reflexivity | ].
  pose proof (len_padded_salaries (v :: salaries) ltac:(discriminate)) as Hlen.
  set (p := padded_salaries (v :: salaries)) in *.
  unfold padded_salaries, RELIEF_PERDIOD. destruct (last p); [ | reflexivity].
  destruct (Z.ltb_spec (len p) (30 + 1)); [lia | reflexivity].
Qed.

(** X12. [get_monthly_salary_array] pads the caller's list once: a second
    call on the same list with the same months returns the same series and
    leaves the store as the first call left it. *)
Theorem get_monthly_salary_array_twice (h : heap Q) (rs : loc)
    (salaries : list Q) (cm rev : month_ref) :
  h !! rs = Some salaries -> salaries <> [] ->
  valid_month cm -> valid_month rev ->
  exists ms h',
    get_monthly_salary_array rs cm rev h = (Ok ms, h') /\
    get_monthly_salary_array rs cm rev h' = (Ok ms, h') /\
    h' !! rs = Some (padded_salaries salaries).
Proof.
  intros Hh Hne Hcm Hrev.
  destruct (calculate_months_difference_range cm rev Hcm Hrev) as (months & Hm & _).
  exists (monthly_layout months (padded_salaries salaries)),
         (<[rs := padded_salaries salaries]> h).
  split; [apply get_monthly_salary_array_run; assumption | ].
  split; [ | apply lookup_insert_eq].
  rewrite (get_monthly_salary_array_run _ rs (padded_salaries salaries) cm rev months
             (lookup_insert_eq _ _ _) (padded_salaries_nonempty _ Hne) Hm).
  rewrite padded_salaries_idempotent, insert_insert_eq. reflexivity.
Qed.

Lemma get_monthly_salary_array_twice_witness :
  let h : heap Q := {[ 1%positive := [30000%Q; 31000%Q] ]} in
  exists ms h',
    get_monthly_salary_array 1%positive (MonthNum 1) april h = (Ok ms, h') /\
    get_monthly_salary_array 1%positive (MonthNum 1) april h' = (Ok ms, h') /\
    h' !! 1%positive = Some (padded_salaries [30000%Q; 31000%Q]).
Proof.
  intros h.
  apply (get_monthly_salary_array_twice h 1%positive [30000%Q; 31000%Q]
           (MonthNum 1) april).
  - reflexivity.
  - discriminate.
  - simpl. lia.
  - simpl. tauto.
Defined.

(** ** [get_monthly_interest_rate_array] *)

Lemma get_monthly_interest_rate_array_store (h : heap Q) rs rr salaries rpis cm :
  h !! rs = Some salaries -> h !! rr = Some rpis ->
  salaries <> [] -> rpis <> [] ->
  exists rates,
    annual_rates_of (extrapolated salaries 31) (extrapolated rpis 31) rates /\
    get_monthly_interest_rate_array rs rr cm h
    = (match calculate_months_difference cm (MonthName "september") with
       | Ok months => Ok (monthly_layout months rates)
       | Raise e => Raise e
       end,
       <[rr := extrapolated rpis 31]> (<[rs := extrapolated salaries 31]> h)).
Proof.
  intros Hs Hr Hsne Hrne.
  unfold get_monthly_interest_rate_array.
  rewrite (bind_ok _ _ _ _ _ (extrapolate_array_run h rs salaries _ Hs Hsne)).
  change (RELIEF_PERDIOD + 1) with 31.
  set (es := extrapolated salaries 31).
  set (er := extrapolated rpis 31).
  set (h1 := <[rs := es]> h).
  assert (Hes : es <> [] /\ 31 <= len es).
  { split; [apply extrapolated_nonempty | apply extrapolated_length]; exact Hsne. }
  assert (Her : er <> [] /\ 31 <= len er).
  { split; [apply extrapolated_nonempty | apply extrapolated_length]; exact Hrne. }
  assert (exists rpis1, h1 !! rr = Some rpis1 /\ rpis1 <> [] /\
                        extrapolated rpis1 31 = er)
    as (rpis1 & Hr1 & Hr1ne & Hr1e).
  { unfold h1. destruct (decide (rs = rr)) as [-> | Hneq].
    - exists es. rewrite lookup_insert_eq.
      split; [reflexivity | ]. split; [tauto | ].
      assert (salaries = rpis) as <- by congruence.
      apply extrapolated_idempotent. lia.
    - exists rpis. rewrite lookup_insert_ne by exact Hneq. tauto. }
  rewrite (bind_ok _ _ _ _ _ (extrapolate_array_run h1 rr rpis1 _ Hr1 Hr1ne)).
  rewrite Hr1e.
  set (h2 := <[rr := er]> h1).
  assert (Hs2 : h2 !! rs = Some es).
  { unfold h2, h1. destruct (decide (rr = rs)) as [-> | Hneq].
    - rewrite lookup_insert_eq.
      assert (salaries = rpis) as <- by congruence. reflexivity.
    - rewrite lookup_insert_ne by exact Hneq. apply lookup_insert_eq. }
  assert (Hr2 : h2 !! rr = Some er) by (unfold h2; apply lookup_insert_eq).
  rewrite (bind_ok _ _ _ _ _ (load_ok h2 rs _ Hs2)).
  rewrite (bind_ok _ _ _ _ _ (load_ok h2 rr _ Hr2)).
  destruct (annual_rates_loop es er (proj2 Hes) (proj2 Her)) as (rates & Hrun & Hrates).
  rewrite (bind_ok _ _ _ _ _ (lift_ok _ h2 _ Hrun)).
  exists rates. split; [exact Hrates | ].
  destruct (calculate_months_difference cm (MonthName "september"))
    as [months | e] eqn:Hm.
  - rewrite (bind_ok _ _ _ _ _ (lift_ok _ h2 _ eq_refl)).
    destruct Hrates as (Hlen & _).
    destruct rates as [ | first rest]; [discriminate | ].
    rewrite (bind_ok _ _ _ _ _ (lift_ok _ h2 _ (py_index_head first rest))).
    unfold ret. simpl drop. rewrite fold_append_year. reflexivity.
  - reflexivity.
Qed.



Lemma annual_rates_lookup (salaries rpis rates : list Q) (y : nat) :
  salaries <> [] -> rpis <> [] -> (y < 31)%nat ->
  annual_rates_of (extrapolated salaries 31) (extrapolated rpis 31) rates ->
  exists s r,
    annual_value salaries y = Some s /\ annual_value rpis y = Some r /\
    rates !! y = Some (calculate_annual_interest_rate s r None).
Proof.
  intros Hsne Hrne Hy (_ & Hpt).
  destruct (Hpt y Hy) as (s & r & Hs & Hr & Hrate).
  rewrite lookup_extrapolated in Hs by (assumption || lia).
  rewrite lookup_extrapolated in Hr by (assumption || lia).
  eauto.
Qed.



Lemma annual_rates_determined (salaries rpis salaries2 rpis2 rates rates2 : list Q) :
  salaries <> [] -> rpis <> [] -> salaries2 <> [] -> rpis2 <> [] ->
  (forall y : nat, (y < 31)%nat ->
     annual_value salaries y = annual_value salaries2 y /\
     annual_value rpis y = annual_value rpis2 y) ->
  annual_rates_of (extrapolated salaries 31) (extrapolated rpis 31) rates ->
  annual_rates_of (extrapolated salaries2 31) (extrapolated rpis2 31) rates2 ->
  rates = rates2.
Proof.
  intros Hs Hr Hs2 Hr2 Hsame Hrates Hrates2.
  apply list_eq. intros y.
  destruct (Nat.lt_ge_cases y 31) as [Hy | Hy].
  - destruct (annual_rates_lookup _ _ _ y Hs Hr Hy Hrates) as (s & r & Es & Er & ->).
    destruct (annual_rates_lookup _ _ _ y Hs2 Hr2 Hy Hrates2)
      as (s2 & r2 & Es2 & Er2 & ->).
    destruct (Hsame y Hy) as (Hss & Hrr).
    congruence.
  - destruct Hrates as (Hl & _). destruct Hrates2 as (Hl2 & _).
    rewrite !lookup_ge_None_2 by lia. reflexivity.
Qed.

(** X15. [get_monthly_interest_rate_array] never looks past the 31st annual
    entry: two calls whose salary lists and RPI lists give the same values
    for the years 0..30 (after extrapolation by the last value) return the
    same series, however long the lists are. *)
Theorem get_monthly_interest_rate_array_first_31 (h h2 : heap Q)
    (rs rr rs2 rr2 : loc) (salaries rpis salaries2 rpis2 : list Q)
    (cm : month_ref) :
  h !! rs = Some salaries -> h !! rr = Some rpis ->
  h2 !! rs2 = Some salaries2 -> h2 !! rr2 = Some rpis2 ->
  salaries <> [] -> rpis <> [] -> salaries2 <> [] -> rpis2 <> [] ->
  (forall y : nat, (y < 31)%nat ->
     annual_value salaries y = annual_value salaries2 y /\
     annual_value rpis y = annual_value rpis2 y) ->
  fst (get_monthly_interest_rate_array rs rr cm h)
  = fst (get_monthly_interest_rate_array rs2 rr2 cm h2).
Proof.
  intros Hs Hr Hs2 Hr2 Hsne Hrne Hsne2 Hrne2 Hsame.
  destruct (get_monthly_interest_rate_array_store h rs rr salaries rpis cm
              Hs Hr Hsne Hrne) as (rates & Hrates & ->).
  destruct (get_monthly_interest_rate_array_store h2 rs2 rr2 salaries2 rpis2 cm
              Hs2 Hr2 Hsne2 Hrne2) as (rates2 & Hrates2 & ->).
  rewrite (annual_rates_determined _ _ _ _ _ _ Hsne Hrne Hsne2 Hrne2
             Hsame Hrates Hrates2).
  reflexivity.
Qed.

Lemma get_monthly_interest_rate_array_first_31_witness :
  let h : heap Q :=
    {[ 1%positive := [30000%Q]; 2%positive := [2%Q] ]} in
  let h2 : heap Q :=
    {[ 1%positive := replicate 31 30000%Q ++ [90000%Q];
       2%positive := replicate 40 2%Q ]} in
  fst (get_monthly_interest_rate_array 1%positive 2%positive (MonthNum 1) h)
  = fst (get_monthly_interest_rate_array 1%positive 2%positive (MonthNum 1) h2).
Proof.
  intros h h2.
  apply (get_monthly_interest_rate_array_first_31 h h2
           1%positive 2%positive 1%positive 2%positive
           [30000%Q] [2%Q] (replicate 31 30000%Q ++ [90000%Q]) (replicate 40 2%Q)).
  - reflexivity.
  - reflexivity.
  - reflexivity.
  - reflexivity.
  - discriminate.
  - discriminate.
  - discriminate.
  - discriminate.
  - intros y Hy.
    do 31 (destruct y as [ | y]; [split; reflexivity | ]). lia.
Defined.

(** ** [get_monthly_discount_factor] *)

Local Open Scope Q_scope.

Lemma length_cumprod_from (acc : Q) (xs : list Q) :
  length (cumprod_from acc xs) = length xs.
Proof.
  revert acc. induction xs as [ | x xs IH]; intros acc; simpl; [ | rewrite IH];
    reflexivity.
Qed.

Lemma length_cumprod (xs : list Q) : length (cumprod xs) = length xs.
Proof.
  destruct xs as [ | x xs]; simpl; [ | rewrite length_cumprod_from]; reflexivity.
Qed.

Lemma cumprod_from_lookup_0 (acc : Q) (xs : list Q) :
  cumprod_from acc xs !! 0%nat = (fun x => acc * x) <$> xs !! 0%nat.
Proof. destruct xs; reflexivity. Qed.

Lemma cumprod_from_lookup_S (acc : Q) (xs : list Q) (k : nat) :
  cumprod_from acc xs !! S k
  = match cumprod_from acc xs !! k with
    | Some d => (fun x => d * x) <$> xs !! S k
    | None => None
    end.
Proof.
  revert acc k. induction xs as [ | x xs IH]; intros acc k; [reflexivity | ].
  destruct k as [ | k].
  - simpl. apply cumprod_from_lookup_0.
  - change (cumprod_from (acc * x) xs !! S k
            = match cumprod_from (acc * x) xs !! k with
              | Some d => (fun y => d * y) <$> xs !! S k
              | None => None
              end).
    apply IH.
Qed.

Lemma cumprod_lookup_S (xs : list Q) (k : nat) :
  cumprod xs !! S k
  = match cumprod xs !! k with
    | Some d => (fun x => d * x) <$> xs !! S k
    | None => None
    end.
Proof.
  destruct xs as [ | x xs]; [reflexivity | ].
  destruct k as [ | k].
  - simpl. apply cumprod_from_lookup_0.
  - change (cumprod_from x xs !! S k
            = match cumprod_from x xs !! k with
              | Some d => (fun y => d * y) <$> xs !! S k
              | None => None
              end).
    apply cumprod_from_lookup_S.
Qed.

Lemma get_monthly_discount_factor_run (h : heap Q) rr rpis cm :
  h !! rr = Some rpis -> rpis <> [] ->
  get_monthly_discount_factor rr cm h
  = (match calculate_months_difference cm (MonthName "september") with
     | Ok months =>
         Ok (cumprod (map (fun rpi => 1 + rpi / 100)
                          (monthly_layout months (extrapolated rpis 31))))
     | Raise e => Raise e
     end,
     <[rr := extrapolated rpis 31]> h).
Proof.
  intros Hr Hne. unfold get_monthly_discount_factor.
  rewrite (bind_ok _ _ _ _ _ (extrapolate_array_run h rr rpis _ Hr Hne)).
  change (RELIEF_PERDIOD + 1)%Z with 31%Z.
  destruct (calculate_months_difference cm (MonthName "september"))
    as [months | e]; [ | reflexivity].
  rewrite (bind_ok _ _ _ _ _ (lift_ok _ _ _ eq_refl)).
  rewrite (bind_ok _ _ _ _ _ (load_ok _ rr _ (lookup_insert_eq _ _ _))).
  pose proof (extrapolated_nonempty rpis 31 Hne) as Hene.
  destruct (extrapolated rpis 31) as [ | first rest]; [contradiction | ].
  rewrite (bind_ok _ _ _ _ _ (lift_ok _ _ _ (py_index_head first rest))).
  unfold ret. simpl drop. rewrite fold_append_year. reflexivity.
Qed.

Lemma len_extrapolated {A} (values : list A) (n : Z) :
  values <> [] ->
  len (extrapolated values n)
  = (if len values <? n then n + 1 else len values)%Z.
Proof.
  intros Hne. destruct (last_nonempty values Hne) as (x & Hx).
  unfold extrapolated. rewrite Hx.
  destruct (Z.ltb_spec (len values) n); [ | reflexivity].
  unfold len, py_repeat in *. rewrite length_app, length_replicate. lia.
Qed.

(** X16. [get_monthly_discount_factor] raises [IndexError] on an empty RPI
    list, raises [ValueError] on a string that is no month name after it has
    extended the list in place, and otherwise returns one factor per month
    of every annual entry of the extended list: for a list shorter than 31
    that is [months + 372] factors, twelve more than the salary and rate
    series have. *)
Theorem get_monthly_discount_factor_length (h : heap Q) (rr : loc)
    (rpis : list Q) (cm : month_ref) :
  h !! rr = Some rpis ->
  (rpis = [] -> get_monthly_discount_factor rr cm h = (Raise IndexError, h)) /\
  (rpis <> [] -> unknown_month_name cm ->
   get_monthly_discount_factor rr cm h
   = (Raise ValueError, <[rr := extrapolated rpis 31]> h)) /\
  (rpis <> [] -> valid_month cm ->
   exists months factors,
     calculate_months_difference cm (MonthName "september") = Ok months /\
     get_monthly_discount_factor rr cm h
     = (Ok factors, <[rr := extrapolated rpis 31]> h) /\
     len factors
     = (months + 12 * ((if len rpis <? 31 then 32 else len rpis) - 1))%Z).
Proof.
  intros Hr. split; [ | split].
  - intros ->. unfold get_monthly_discount_factor.
    apply bind_raise. rewrite (extrapolate_array_empty h rr _ Hr). reflexivity.
  - intros Hne Hu. rewrite (get_monthly_discount_factor_run h rr rpis cm Hr Hne).
    rewrite (calculate_months_difference_unknown cm _ (or_introl Hu)).
    reflexivity.
  - intros Hne Hcm.
    assert (Hsept : valid_month (MonthName "september")) by (simpl; tauto).
    destruct (calculate_months_difference_range cm _ Hcm Hsept)
      as (months & Hm & Hrange).
    rewrite (get_monthly_discount_factor_run h rr rpis cm Hr Hne), Hm.
    do 2 eexists. split; [reflexivity | ]. split; [reflexivity | ].
    unfold len at 1. rewrite length_cumprod, length_map.
    pose proof (length_monthly_layout months _ (extrapolated_nonempty rpis 31 Hne))
      as Hl.
    unfold len at 1 in Hl. rewrite Hl, (len_extrapolated rpis 31 Hne).
    destruct (len rpis <? 31)%Z; lia.
Qed.

Lemma get_monthly_discount_factor_length_witness :
  let h : heap Q := {[ 1%positive := []; 2%positive := [2; 3] ]} in
  get_monthly_discount_factor 1%positive (MonthNum 1) h = (Raise IndexError, h) /\
  get_monthly_discount_factor 2%positive (MonthName "Sept") h
    = (Raise ValueError, <[2%positive := extrapolated [2; 3] 31]> h) /\
  (exists months factors,
     calculate_months_difference (MonthNum 1) (MonthName "september") = Ok months /\
     get_monthly_discount_factor 2%positive (MonthNum 1) h
     = (Ok factors, <[2%positive := extrapolated [2; 3] 31]> h) /\
     len factors
     = (months + 12 * ((if len [2; 3] <? 31 then 32 else len [2; 3]) - 1))%Z).
Proof.
  intros h.
  destruct (get_monthly_discount_factor_length h 1%positive [] (MonthNum 1) eq_refl)
    as (H1 & _ & _).
  destruct (get_monthly_discount_factor_length h 2%positive [2; 3]
              (MonthName "Sept") eq_refl) as (_ & H2 & _).
  destruct (get_monthly_discount_factor_length h 2%positive [2; 3]
              (MonthNum 1) eq_refl) as (_ & _ & H3).
  split; [apply H1; reflexivity | ].
  split.
  - apply H2; [discriminate | ].
    simpl. intros H. repeat (destruct H as [H | H]; [discriminate | ]).
    contradiction.
  - apply H3; [discriminate | simpl; lia].
Defined.

Lemma lookup_extrapolated_in_range {A} (values : list A) (n : Z) (y : nat) :
  values <> [] -> (y < length (extrapolated values n))%nat ->
  extrapolated values n !! y = annual_value values y.
Proof.
  intros Hne Hy. destruct (last_nonempty values Hne) as (x & Hx).
  unfold extrapolated, py_repeat in *. rewrite Hx in *.
  destruct (len values <? n)%Z.
  - rewrite length_app, length_replicate in Hy.
    apply lookup_extended; [exact Hx | exact Hy].
  - unfold annual_value.
    destruct (lookup_lt_is_Some_2 values y Hy) as (a & ->). reflexivity.
Qed.

Lemma lookup_growth (months : Z) (rpis : list Q) (i : nat) :
  rpis <> [] ->
  (i < length (monthly_layout months (extrapolated rpis 31)))%nat ->
  exists a,
    annual_value rpis (year_of_month months i) = Some a /\
    map (fun rpi => 1 + rpi / 100) (monthly_layout months (extrapolated rpis 31)) !! i
    = Some (1 + a / 12 / 100).
Proof.
  intros Hne Hi.
  pose proof (extrapolated_nonempty rpis 31 Hne) as Hene.
  destruct (lookup_lt_is_Some_2 _ _ Hi) as (m & Hm).
  pose proof Hm as Hm'. rewrite (lookup_monthly_layout _ _ _ Hene) in Hm'.
  destruct (extrapolated rpis 31 !! year_of_month months i) as [a | ] eqn:Ha;
    [ | discriminate].
  injection Hm' as <-.
  rewrite lookup_extrapolated_in_range in Ha
    by (exact Hne || (apply lookup_lt_Some in Ha; exact Ha)).
  exists a. split; [exact Ha | ].
  rewrite list_lookup_fmap, Hm. reflexivity.
Qed.

(** X17. The discount factors compound month by month: the first factor is
    [1 + rpi / 12 / 100] for the RPI of the first month's year, and every
    later factor is the one before it times [1 + rpi / 12 / 100] for the RPI
    of that month's year (the last RPI of the list standing for the years
    past its end). *)
Theorem get_monthly_discount_factor_compounds (h : heap Q) (rr : loc)
    (rpis : list Q) (cm : month_ref) (months : Z) :
  h !! rr = Some rpis -> rpis <> [] ->
  calculate_months_difference cm (MonthName "september") = Ok months ->
  exists factors h',
    get_monthly_discount_factor rr cm h = (Ok factors, h') /\
    (forall i : nat, (i < length factors)%nat ->
       exists a d,
         annual_value rpis (year_of_month months i) = Some a /\
         factors !! i = Some d /\
         match i with
         | O => d = 1 + a / 12 / 100
         | S k => exists d0, factors !! k = Some d0 /\ d = d0 * (1 + a / 12 / 100)
         end).
Proof.
  intros Hr Hne Hm.
  rewrite (get_monthly_discount_factor_run h rr rpis cm Hr Hne), Hm.
  do 2 eexists. split; [reflexivity | ].
  set (G := map (fun rpi => 1 + rpi / 100)
                (monthly_layout months (extrapolated rpis 31))).
  intros i Hi. rewrite length_cumprod in Hi.
  assert (Hi' : (i < length (monthly_layout months (extrapolated rpis 31)))%nat)
    by (unfold G in Hi; rewrite length_map in Hi; exact Hi).
  destruct (lookup_growth months rpis i Hne Hi') as (a & Ha & Hg).
  fold G in Hg. exists a.
  destruct i as [ | k].
  - exists (1 + a / 12 / 100). split; [exact Ha | ].
    destruct G as [ | g G']; [discriminate | ].
    simpl in Hg. injection Hg as ->. split; reflexivity.
  - destruct (lookup_lt_is_Some_2 (cumprod G) k
                ltac:(rewrite length_cumprod; lia)) as (d0 & Hd0).
    exists (d0 * (1 + a / 12 / 100)). split; [exact Ha | ].
    split; [rewrite cumprod_lookup_S, Hd0, Hg; reflexivity | ].
    exists d0. split; [exact Hd0 | reflexivity].
Qed.

Lemma get_monthly_discount_factor_compounds_witness :
  let h : heap Q := {[ 2%positive := [2; 3] ]} in
  exists factors h',
    get_monthly_discount_factor 2%positive (MonthNum 1) h = (Ok factors, h') /\
    (forall i : nat, (i < length factors)%nat ->
       exists a d,
         annual_value [2; 3] (year_of_month 8 i) = Some a /\
         factors !! i = Some d /\
         match i with
         | O => d = 1 + a / 12 / 100
         | S k => exists d0, factors !! k = Some d0 /\ d = d0 * (1 + a / 12 / 100)
         end).
Proof.
  intros h.
  apply (get_monthly_discount_factor_compounds h 2%positive [2; 3] (MonthNum 1) 8).
  - reflexivity.
  - discriminate.
  - reflexivity.
Defined.

Lemma cumprod_lookup_0 (xs : list Q) : cumprod xs !! 0%nat = xs !! 0%nat.
Proof. destruct xs; reflexivity. Qed.

Lemma cumprod_step (xs : list Q) (k : nat) (d : Q) :
  cumprod xs !! S k = Some d ->
  exists d0 x, cumprod xs !! k = Some d0 /\ xs !! S k = Some x /\ d = d0 * x.
Proof.
  rewrite cumprod_lookup_S.
  destruct (cumprod xs !! k) as [d0 | ]; [ | discriminate].
  destruct (xs !! S k) as [x | ]; [ | discriminate].
  simpl. intros [= <-]. eauto.
Qed.

Lemma cumprod_ge_1 (xs : list Q) :
  (forall (i : nat) x, xs !! i = Some x -> 1 <= x) ->
  forall (k : nat) d, cumprod xs !! k = Some d -> 1 <= d.
Proof.
  intros Hxs. induction k as [ | k IH]; intros d Hd.
  - rewrite cumprod_lookup_0 in Hd. apply (Hxs _ _ Hd).
  - destruct (cumprod_step xs k d Hd) as (d0 & x & Hd0 & Hx & ->).
    pose proof (IH d0 Hd0). pose proof (Hxs _ _ Hx). nra.
Qed.

Lemma cumprod_constant (xs : list Q) (c : Q) :
  (forall (i : nat) x, xs !! i = Some x -> x = c) ->
  forall (k : nat) d, cumprod xs !! k = Some d -> d == c ^ Z.of_nat (S k).
Proof.
  intros Hxs. induction k as [ | k IH]; intros d Hd.
  - rewrite cumprod_lookup_0 in Hd. rewrite (Hxs _ _ Hd).
    symmetry. apply Qpower_1_r.
  - destruct (cumprod_step xs k d Hd) as (d0 & x & Hd0 & Hx & ->).
    rewrite (Hxs _ _ Hx), (IH d0 Hd0).
    replace (Z.of_nat (S (S k))) with (Z.of_nat (S k) + 1)%Z by lia.
    rewrite Qpower_plus' by lia. reflexivity.
Qed.

Lemma annual_value_In {A} (values : list A) (y : nat) (a : A) :
  annual_value values y = Some a -> In a values.
Proof.
  unfold annual_value. destruct (values !! y) as [b | ] eqn:E.
  - intros [= <-]. apply list_elem_of_In, list_elem_of_lookup. eauto.
  - rewrite last_lookup. intros Hl.
    apply list_elem_of_In, list_elem_of_lookup. eauto.
Qed.

Lemma growth_entries (months : Z) (rpis : list Q) (P : Q -> Prop) :
  rpis <> [] ->
  (forall a, In a rpis -> P (1 + a / 12 / 100)) ->
  forall (i : nat) g,
    map (fun rpi => 1 + rpi / 100) (monthly_layout months (extrapolated rpis 31)) !! i
    = Some g -> P g.
Proof.
  intros Hne HP i g Hg.
  pose proof (lookup_lt_Some _ _ _ Hg) as Hi. rewrite length_map in Hi.
  destruct (lookup_growth months rpis i Hne Hi) as (a & Ha & Hg').
  rewrite Hg' in Hg. injection Hg as <-.
  apply HP. apply (annual_value_In _ _ _ Ha).
Qed.

(** X18. When no RPI of the list is negative, every discount factor is at
    least 1 and the factors never decrease from one month to the next. *)
Theorem get_monthly_discount_factor_nondecreasing (h : heap Q) (rr : loc)
    (rpis : list Q) (cm : month_ref) :
  h !! rr = Some rpis -> rpis <> [] -> valid_month cm ->
  (forall a, In a rpis -> 0 <= a) ->
  exists factors h',
    get_monthly_discount_factor rr cm h = (Ok factors, h') /\
    forall (k : nat) d, factors !! k = Some d ->
      1 <= d /\ forall d', factors !! S k = Some d' -> d <= d'.
Proof.
  intros Hr Hne Hcm Hpos.
  assert (Hsept : valid_month (MonthName "september")) by (simpl; tauto).
  destruct (calculate_months_difference_range cm _ Hcm Hsept) as (months & Hm & _).
  rewrite (get_monthly_discount_factor_run h rr rpis cm Hr Hne), Hm.
  do 2 eexists. split; [reflexivity | ].
  assert (HG : forall (i : nat) g,
             map (fun rpi => 1 + rpi / 100)
                 (monthly_layout months (extrapolated rpis 31)) !! i = Some g ->
             1 <= g).
  { apply (growth_entries months rpis (fun g => 1 <= g) Hne).
    intros a Ha. pose proof (Hpos a Ha). const_div. lra. }
  intros k d Hd. pose proof (cumprod_ge_1 _ HG k d Hd) as Hd1.
  split; [exact Hd1 | ].
  intros d' Hd'.
  destruct (cumprod_step _ k d' Hd') as (d0 & x & Hd0 & Hx & ->).
  rewrite Hd in Hd0. injection Hd0 as <-.
  pose proof (HG _ _ Hx). nra.
Qed.

Lemma get_monthly_discount_factor_nondecreasing_witness :
  let h : heap Q := {[ 2%positive := [2; 0; 3] ]} in
  exists factors h',
    get_monthly_discount_factor 2%positive (MonthNum 1) h = (Ok factors, h') /\
    forall (k : nat) d, factors !! k = Some d ->
      1 <= d /\ forall d', factors !! S k = Some d' -> d <= d'.
Proof.
  intros h.
  apply (get_monthly_discount_factor_nondecreasing h 2%positive [2; 0; 3]
           (MonthNum 1)).
  - reflexivity.
  - discriminate.
  - simpl. lia.
  - intros a Ha. simpl in Ha.
    destruct Ha as [<- | [<- | [<- | []]]]; unfold Qle; simpl; lia.
Defined.

(** X19. For a constant RPI [r] the factor of month [k] is
    [(1 + r / 12 / 100) ^ (k + 1)]: monthly compounding at one twelfth of
    the annual rate. *)
Theorem get_monthly_discount_factor_constant (h : heap Q) (rr : loc)
    (rpis : list Q) (cm : month_ref) (r : Q) :
  h !! rr = Some rpis -> rpis <> [] -> valid_month cm ->
  (forall a, In a rpis -> a = r) ->
  exists factors h',
    get_monthly_discount_factor rr cm h = (Ok factors, h') /\
    forall (k : nat) d, factors !! k = Some d ->
      d == (1 + r / 12 / 100) ^ Z.of_nat (S k).
Proof.
  intros Hr Hne Hcm Hconst.
  assert (Hsept : valid_month (MonthName "september")) by (simpl; tauto).
  destruct (calculate_months_difference_range cm _ Hcm Hsept) as (months & Hm & _).
  rewrite (get_monthly_discount_factor_run h rr rpis cm Hr Hne), Hm.
  do 2 eexists. split; [reflexivity | ].
  apply cumprod_constant.
  apply (growth_entries months rpis (fun g => g = 1 + r / 12 / 100) Hne).
  intros a Ha. rewrite (Hconst a Ha). reflexivity.
Qed.

Lemma get_monthly_discount_factor_constant_witness :
  let h : heap Q := {[ 2%positive := [2; 2] ]} in
  exists factors h',
    get_monthly_discount_factor 2%positive (MonthNum 1) h = (Ok factors, h') /\
    forall (k : nat) d, factors !! k = Some d ->
      d == (1 + 2 / 12 / 100) ^ Z.of_nat (S k).
Proof.
  intros h.
  apply (get_monthly_discount_factor_constant h 2%positive [2; 2] (MonthNum 1) 2).
  - reflexivity.
  - discriminate.
  - simpl. lia.
  - intros a Ha. simpl in Ha. destruct Ha as [<- | [<- | []]]; reflexivity.
Defined.

(** * Further properties of simulation.py *)














Lemma amortization_prefix ms mr d d' loan n n' reps ints bals reps' ints' bals' :
  amortization ms mr d loan n reps ints bals ->
  amortization ms mr d' loan n' reps' ints' bals' ->
  (n <= n')%nat ->
  (forall j : nat, (j < n)%nat -> d !! Z.of_nat j = d' !! Z.of_nat j) ->
  reps = take n reps' /\ ints = take n ints' /\ bals = take n bals'.
Proof.
  intros Ham Ham' Hn Hd.
  pose proof (amortization_agree ms mr d d' loan n n' _ _ _ _ _ _ n
                Ham Ham' ltac:(lia) Hn Hd) as Hsame.
  destruct Ham as (Hlr & Hli & Hlb & _).
  assert (Heq : forall l l' : list Q, length l = n ->
            (forall j : nat, (j < n)%nat -> l !! j = l' !! j) -> l = take n l').
  { intros l l' Hl Hpt. apply list_eq. intros j.
    destruct (Nat.lt_ge_cases j n) as [Hj | Hj].
    - rewrite lookup_take_lt by exact Hj. apply Hpt. exact Hj.
    - rewrite lookup_take_ge by exact Hj. apply lookup_ge_None_2. lia. }
  split; [ | split]; apply Heq; try assumption; intros j Hj;
    destruct (Hsame j Hj) as (? & ? & ?); assumption.
Qed.

(** X24. A shorter horizon gives a prefix of a longer one: for
    [m <= m' <= 360] the three lists returned for [m] are the first [m]
    entries of the lists returned for [m']. *)
Theorem simulate_repayment_horizon_prefix (h : heap Q) (rs rr : loc)
    (salaries rpis : list Q) (cm : month_ref) (loan : Q) (m m' : Z)
    (d : gmap Z Q) :
  h !! rs = Some salaries -> h !! rr = Some rpis ->
  salaries <> [] -> rpis <> [] -> valid_month cm ->
  (m <= m')%Z -> (m' <= 360)%Z ->
  exists reps ints bals reps' ints' bals' h',
    simulate_repayment loan rr rs cm m d h = (Ok (reps, ints, bals), h') /\
    simulate_repayment loan rr rs cm m' d h = (Ok (reps', ints', bals'), h') /\
    reps = take (Z.to_nat m) reps' /\
    ints = take (Z.to_nat m) ints' /\
    bals = take (Z.to_nat m) bals'.
Proof.
  intros Hs Hr Hsne Hrne Hcm Hmm Hm'.
  destruct (monthly_series_exist h rs rr salaries rpis cm Hs Hr Hsne Hrne Hcm)
    as (ms & mr & h' & Hser).
  destruct (simulate_repayment_run h h' rs rr cm ms mr loan m d Hser ltac:(lia))
    as (reps & ints & bals & Hrun & Ham).
  destruct (simulate_repayment_run h h' rs rr cm ms mr loan m' d Hser Hm')
    as (reps' & ints' & bals' & Hrun' & Ham').
  exists reps, ints, bals, reps', ints', bals', h'.
  split; [exact Hrun | ]. split; [exact Hrun' | ].
  apply (amortization_prefix ms mr d d loan _ _ _ _ _ _ _ _ Ham Ham'); [lia | auto].
Qed.

Lemma simulate_repayment_horizon_prefix_witness :
  exists reps ints bals reps' ints' bals' h',
    simulate_repayment 40000 2%positive 1%positive (MonthNum 1) 2 ∅ example_store
      = (Ok (reps, ints, bals), h') /\
    simulate_repayment 40000 2%positive 1%positive (MonthNum 1) 5 ∅ example_store
      = (Ok (reps', ints', bals'), h') /\
    reps = take (Z.to_nat 2) reps' /\
    ints = take (Z.to_nat 2) ints' /\
    bals = take (Z.to_nat 2) bals'.
Proof.
  apply (simulate_repayment_horizon_prefix example_store 1%positive 2%positive
           [30000; 31000] [2] (MonthNum 1)).
  - reflexivity.
  - reflexivity.
  - discriminate.
  - discriminate.
  - simpl. lia.
  - lia.
  - lia.
Defined.

(** X25. Only the dictionary's entries for the months [0 .. m - 1] count:
    two dictionaries that agree on those keys give the same result, so
    entries under a negative key or a key at or past the horizon are never
    applied. *)
Theorem simulate_repayment_dictionary_range (h : heap Q) (rs rr : loc)
    (salaries rpis : list Q) (cm : month_ref) (loan : Q) (m : Z)
    (d d' : gmap Z Q) :
  h !! rs = Some salaries -> h !! rr = Some rpis ->
  salaries <> [] -> rpis <> [] -> valid_month cm -> (m <= 360)%Z ->
  (forall i : Z, (0 <= i < m)%Z -> d !! i = d' !! i) ->
  simulate_repayment loan rr rs cm m d h
  = simulate_repayment loan rr rs cm m d' h.
Proof.
  intros Hs Hr Hsne Hrne Hcm Hm Hd.
  destruct (monthly_series_exist h rs rr salaries rpis cm Hs Hr Hsne Hrne Hcm)
    as (ms & mr & h' & Hser).
  destruct (simulate_repayment_run h h' rs rr cm ms mr loan m d Hser Hm)
    as (reps & ints & bals & Hrun & Ham).
  destruct (simulate_repayment_run h h' rs rr cm ms mr loan m d' Hser Hm)
    as (reps' & ints' & bals' & Hrun' & Ham').
  rewrite Hrun, Hrun'.
  destruct (amortization_prefix ms mr d d' loan _ _ _ _ _ _ _ _ Ham Ham')
    as (Er & Ei & Eb); [lia | intros j Hj; apply Hd; lia | ].
  destruct Ham' as (Hlr & Hli & Hlb & _).
  rewrite take_ge in Er, Ei, Eb by lia. congruence.
Qed.

Lemma simulate_repayment_dictionary_range_witness :
  simulate_repayment 40000 2%positive 1%positive (MonthNum 1) 3
                     {[ 1%Z := 500 ]} example_store
  = simulate_repayment 40000 2%positive 1%positive (MonthNum 1) 3
                       (<[3%Z := 900]> (<[(-1)%Z := 700]> {[ 1%Z := 500 ]}))
                       example_store.
Proof.
  apply (simulate_repayment_dictionary_range example_store 1%positive 2%positive
           [30000; 31000] [2] (MonthNum 1)).
  - reflexivity.
  - reflexivity.
  - discriminate.
  - discriminate.
  - simpl. lia.
  - lia.
  - intros i Hi. rewrite !lookup_insert_ne by lia. reflexivity.
Defined.


